(** * HashMap: a shallow embedding of [hashMap.hpp]

    The class [HashMap<keyT, valueT>] is a separate-chaining hash table: an
    array [_buckets] of [_capacity] vectors of pairs, and a counter [_size].

    Modelling conventions.
    - [int] fields and locals are integers of [Z].  Signed overflow is
      undefined behaviour in C++, so the model describes the executions in
      which no [int] leaves its range; [capacity_bound] below shows that the
      capacity of a table built by inserting and erasing never exceeds
      [max 16 (4 * size)].
    - [std::vector<std::pair<keyT, valueT>>] is a [list (K * V)], the bucket
      array is a list of buckets, indexed with stdpp's lookup.
    - [std::hash<keyT>] is the class [Hash]; [operator==] on keys and
      [operator!=] on values are decidable equality.
    - [double(_size) / _capacity] is a rational of [Q]: for [int] operands the
      comparison of the quotient with 0.25 and 0.75 is exact in binary
      floating point.
    - A thrown [std::exception] is [None] in [bucketIndex] and [at], and
      [Throws] in the constructor.
    - [insert] and [resize] call each other; they are defined with a counter
      that bounds the depth of that recursion, and return [None] when it runs
      out (or when the C++ code would run off the end of a non-void
      function).  For every table satisfying the class invariant [wf] a depth
      of 2 is enough. *)

From Stdlib Require Import ZArith QArith Lia.
From stdpp Require Import base numbers option list.

#[local] Open Scope Z_scope.

(** ** Constants of the source *)

Definition DEF_LOW_BOUND : Q := 25 # 100.
Definition DEF_HIGH_BOUND : Q := 75 # 100.
Definition DEF_CAPACITY : Z := 16.

Inductive way_t := UP | DOWN.

(** [std::hash<keyT>]: a [size_t] per key. *)
Class Hash (K : Type) := {
  hash : K → Z;
  hash_range : ∀ k, 0 ≤ hash k < 2 ^ 64
}.

(** What a call leaves behind: a value, or a thrown [std::exception]. *)
Inductive outcome (A : Type) :=
  | Returns (a : A)
  | Throws.
Arguments Returns {A} a.
Arguments Throws {A}.

Create HintDb hm discriminated.

(** A bucket: [std::vector<std::pair<keyT, valueT>>]. *)
Abbreviation bucket_t K V := (list (K * V)) (only parsing).

Section HashMap.
Context {K V : Type} `{EqDecision K, Hash K, EqDecision V}.

Record HashMap := mkHashMap {
  _buckets : list (bucket_t K V);
  _size : Z;
  _capacity : Z
}.

(** [hashy]: [std::hash<keyT>()(item) & (_capacity - 1)]. *)
Definition hashy (m : HashMap) (item : K) : Z :=
  Z.land (hash item) (_capacity m - 1).

(** [_buckets[i]]. *)
Definition bucket (m : HashMap) (i : Z) : bucket_t K V :=
  default [] (_buckets m !! Z.to_nat i).

(** The scan [for (j = 0; j < b.size(); j++) if (b[j].first == key)]:
    the first [j] that passes the test. *)
Fixpoint find_key (b : bucket_t K V) (key : K) : option nat :=
  match b with
  | [] => None
  | p :: b' => if decide (p.1 = key) then Some 0%nat else S <$> find_key b' key
  end.

(** [first]: index of the first non-empty bucket, or [_capacity]. *)
Fixpoint first_loop (n : nat) (m : HashMap) (i : Z) : Z :=
  match n with
  | O => _capacity m
  | S n' =>
      match bucket m i with
      | [] => first_loop n' m (i + 1)
      | _ :: _ => i
      end
  end.

Definition first (m : HashMap) : Z :=
  first_loop (Z.to_nat (_capacity m)) m 0.

(** The default constructor. *)
Definition HashMap_default : HashMap :=
  {| _buckets := replicate (Z.to_nat DEF_CAPACITY) [];
     _size := 0;
     _capacity := DEF_CAPACITY |}.

Definition size (m : HashMap) : Z := _size m.
Definition capacity (m : HashMap) : Z := _capacity m.

Definition getLoadFactor (m : HashMap) : Q :=
  inject_Z (_size m) / inject_Z (_capacity m).

(** [empty]: [return _size != 0]. *)
Definition empty (m : HashMap) : bool := negb (_size m =? 0).

(** [bucketIndex]: [None] is the thrown exception. *)
Definition bucketIndex (m : HashMap) (key : K) : option Z :=
  let i := hashy m key in
  match find_key (bucket m i) key with
  | Some _ => Some i
  | None => None
  end.

(** [containsKey]: [true] unless [bucketIndex] threw. *)
Definition containsKey (m : HashMap) (key : K) : bool :=
  match bucketIndex m key with
  | Some _ => true
  | None => false
  end.

(** [at]: rethrows the exception of [bucketIndex]. *)
Definition at_ (m : HashMap) (key : K) : option V :=
  i ← bucketIndex m key;
  j ← find_key (bucket m i) key;
  snd <$> bucket m i !! j.

(** [bucketSize]. *)
Definition bucketSize (m : HashMap) (key : K) : option Z :=
  i ← bucketIndex m key;
  Some (Z.of_nat (length (bucket m i))).

(** [clear]: every bucket is emptied; [_size] is not assigned. *)
Definition clear (m : HashMap) : HashMap :=
  {| _buckets := (λ _, []) <$> _buckets m;
     _size := _size m;
     _capacity := _capacity m |}.

(** [x < y] on rationals, as a boolean. *)
Definition Qlt_b (x y : Q) : bool := negb (Qle_bool y x).

(** The two nested loops of [resize], over the saved buckets in index
    order and over each bucket's pairs in order; [ins] is [insert]. *)
Fixpoint reinsert (ins : HashMap → K → V → option (bool * HashMap))
    (ps : bucket_t K V) (m : HashMap) : option HashMap :=
  match ps with
  | [] => Some m
  | p :: ps' => r ← ins m p.1 p.2; reinsert ins ps' r.2
  end.

Fixpoint reinsert_buckets (ins : HashMap → K → V → option (bool * HashMap))
    (bs : list (bucket_t K V)) (m : HashMap) : option HashMap :=
  match bs with
  | [] => Some m
  | b :: bs' => m' ← reinsert ins b m; reinsert_buckets ins bs' m'
  end.

(** [resize], with the [insert] it calls as a parameter. *)
Definition resize_with (ins : HashMap → K → V → option (bool * HashMap))
    (way : way_t) (m : HashMap) : option HashMap :=
  let savedCapacity := _capacity m in
  let capacity' :=
    match way with
    | UP => _capacity m * 2
    | DOWN => _capacity m `quot` 2
    end in
  let saved := _buckets m in
  let fresh :=
    clear {| _buckets := replicate (Z.to_nat capacity') [];
             _size := 0;
             _capacity := capacity' |} in
  reinsert_buckets ins (take (Z.to_nat savedCapacity) saved) fresh.

(** [insert]; [n] bounds the depth of the calls through [resize]. *)
Fixpoint insert (n : nat) (m : HashMap) (key : K) (value : V)
    : option (bool * HashMap) :=
  match n with
  | O => None
  | S n' =>
      if containsKey m key then Some (false, m)
      else
        let keyHash := hashy m key in
        let m1 :=
          {| _buckets :=
               <[Z.to_nat keyHash := bucket m keyHash ++ [(key, value)]]>
                 (_buckets m);
             _size := _size m + 1;
             _capacity := _capacity m |} in
        if Qlt_b DEF_HIGH_BOUND (getLoadFactor m1)
        then m2 ← resize_with (insert n') UP m1; Some (true, m2)
        else Some (true, m1)
  end.

Definition resize (n : nat) : way_t → HashMap → option HashMap :=
  resize_with (insert n).

(** [erase]. *)
Definition erase (n : nat) (m : HashMap) (key : K) : option (bool * HashMap) :=
  match bucketIndex m key with
  | None => Some (false, m)
  | Some i =>
      j ← find_key (bucket m i) key;
      let m1 :=
        {| _buckets := <[Z.to_nat i := delete j (bucket m i)]> (_buckets m);
           _size := _size m - 1;
           _capacity := _capacity m |} in
      if Qlt_b (getLoadFactor m1) DEF_LOW_BOUND
      then m2 ← resize n DOWN m1; Some (true, m2)
      else Some (true, m1)
  end.

(** The non-const [operator[]]: the table after the implicit insert of the
    default-initialised [a], and the place of the value it returns a
    reference to (bucket, position). *)
Definition subscript (n : nat) (a : V) (m : HashMap) (key : K)
    : option (HashMap * (Z * nat)) :=
  m' ← (if containsKey m key then Some m else snd <$> insert n m key a);
  let h := hashy m' key in
  i ← find_key (bucket m' h) key;
  Some (m', (h, i)).

(** Assignment through the reference returned by [operator[]]. *)
Definition store (m : HashMap) (ref : Z * nat) (value : V) : HashMap :=
  {| _buckets :=
       <[Z.to_nat ref.1 := alter (λ p, (p.1, value)) ref.2 (bucket m ref.1)]>
         (_buckets m);
     _size := _size m;
     _capacity := _capacity m |}.

(** The constructor from two vectors: the loop that assigns
    [values[index]] through [operator[]] at [keys[index]]. *)
Fixpoint HashMap_of_loop (n : nat) (a : V) (m : HashMap)
    (keys : list K) (values : list V) : option HashMap :=
  match keys, values with
  | key :: keys', value :: values' =>
      r ← subscript n a m key;
      HashMap_of_loop n a (store r.1 r.2 value) keys' values'
  | _, _ => Some m
  end.

Definition HashMap_of (n : nat) (a : V) (keys : list K) (values : list V)
    : option (outcome HashMap) :=
  if decide (length keys ≠ length values) then Some Throws
  else Returns <$> HashMap_of_loop n a HashMap_default keys values.

(** *** The iterator

    A [std::vector] iterator is the place it points to: a bucket and an
    offset in it.  Two of them compare equal when they are the same place;
    the loops below only compare iterators of one bucket, or an iterator
    that points to a stored pair with the end of the last bucket. *)
Record vec_it := mkVecIt {
  it_bucket : Z;
  it_offset : nat
}.

#[export] Instance vec_it_eq_dec : EqDecision vec_it.
Proof. solve_decision. Defined.

Definition vec_begin (i : Z) : vec_it := mkVecIt i 0.
Definition vec_end (m : HashMap) (i : Z) : vec_it :=
  mkVecIt i (length (bucket m i)).
Definition vec_next (it : vec_it) : vec_it :=
  mkVecIt (it_bucket it) (S (it_offset it)).

(** [HashMap::iterator]; the table [_hm] it refers to is the argument [m]
    of the functions below. *)
Record iterator := mkIterator {
  _it : vec_it;
  _index : Z
}.

(** [operator*]. *)
Definition deref (m : HashMap) (i : iterator) : option (K * V) :=
  bucket m (it_bucket (_it i)) !! it_offset (_it i).

(** [operator==] and [operator!=] of iterators compare [_it] only. *)
Definition iterator_eq (i j : iterator) : bool := bool_decide (_it i = _it j).
Definition iterator_ne (i j : iterator) : bool := negb (iterator_eq i j).

(** The loop of [operator++]; every turn increments [_index] and needs
    [_index < _capacity - 1], so [_capacity - 1 - _index] turns are all it
    can take. *)
Fixpoint skip_loop (n : nat) (m : HashMap) (it : vec_it) (index : Z) : iterator :=
  match n with
  | O => mkIterator it index
  | S n' =>
      if bool_decide (it = vec_end m index) && (index <? _capacity m - 1)
      then skip_loop n' m (vec_begin (index + 1)) (index + 1)
      else mkIterator it index
  end.

(** [operator++(int)]. *)
Definition incr (m : HashMap) (i : iterator) : iterator :=
  skip_loop (Z.to_nat (_capacity m - 1 - _index i)) m
    (vec_next (_it i)) (_index i).

Definition end_ (m : HashMap) : iterator :=
  mkIterator (vec_end m (_capacity m - 1)) (_capacity m - 1).

Definition begin (m : HashMap) : iterator :=
  let i := first m in
  if i =? _capacity m then end_ m else mkIterator (vec_begin i) i.

(** [for (auto i = begin(); i != end(); i++)], collecting [*i]; at most [n]
    turns. *)
Fixpoint traverse (n : nat) (m : HashMap) (i : iterator)
    : option (list (K * V)) :=
  if iterator_ne i (end_ m) then
    match n with
    | O => None
    | S n' =>
        p ← deref m i;
        l ← traverse n' m (incr m i);
        Some (p :: l)
    end
  else Some [].

(** The pairs a full traversal visits, in order; the loop cannot take more
    turns than there are stored pairs. *)
Definition items (m : HashMap) : option (list (K * V)) :=
  traverse (length (mjoin (_buckets m))) m (begin m).

(** *** Copy construction, assignment, equality *)

(** The copy constructor: [_size] starts at [other._size]. *)
Definition HashMap_copy (n : nat) (other : HashMap) : option HashMap :=
  let this :=
    {| _buckets := replicate (Z.to_nat (_capacity other)) [];
       _size := _size other;
       _capacity := _capacity other |} in
  ps ← items other;
  reinsert (insert n) ps this.

(** [operator=] from another object ([this != &other]); assigning a table
    to itself leaves it as it is. *)
Definition assign (n : nat) (other : HashMap) : option HashMap :=
  let this :=
    {| _buckets := replicate (Z.to_nat (_capacity other)) [];
       _size := 0;
       _capacity := _capacity other |} in
  ps ← items other;
  reinsert (insert n) ps this.

(** [operator==]. *)
Definition equal (this other : HashMap) : option bool :=
  if negb (_size this =? _size other) then Some false
  else
    ps ← items other;
    Some (forallb
            (λ p, match at_ this p.1 with
                  | Some v => bool_decide (v = p.2)
                  | None => false
                  end) ps).

Definition not_equal (this other : HashMap) : option bool :=
  negb <$> equal this other.

(** *** The class invariant and the intermediate tables *)

(** The stored pairs, bucket by bucket. *)
Definition entries (m : HashMap) : list (K * V) := mjoin (_buckets m).

(** How the pairs are laid out: [_capacity] buckets, every pair in the
    bucket of its key's hash, no key twice. *)
Record layout (m : HashMap) : Prop := {
  lay_capacity : 0 < _capacity m;
  lay_buckets : length (_buckets m) = Z.to_nat (_capacity m);
  lay_placed : ∀ (i : nat) (b : bucket_t K V) p,
    _buckets m !! i = Some b → p ∈ b → hashy m p.1 = Z.of_nat i;
  lay_unique : NoDup (entries m).*1
}.

(** What the class keeps between calls: the layout, [_size] counting the
    stored pairs, and a load factor of at most 0.75. *)
Record wf (m : HashMap) : Prop := {
  wf_layout : layout m;
  wf_size : _size m = Z.of_nat (length (entries m));
  wf_load : 4 * _size m ≤ 3 * _capacity m
}.

(** The table after [push_back] and [_size++]. *)
Definition pushed (m : HashMap) (key : K) (value : V) : HashMap :=
  {| _buckets :=
       <[Z.to_nat (hashy m key) := bucket m (hashy m key) ++ [(key, value)]]>
         (_buckets m);
     _size := _size m + 1;
     _capacity := _capacity m |}.

(** The table after the vector's [erase] and [_size--]. *)
Definition erased (m : HashMap) (i : Z) (j : nat) : HashMap :=
  {| _buckets := <[Z.to_nat i := delete j (bucket m i)]> (_buckets m);
     _size := _size m - 1;
     _capacity := _capacity m |}.

(** The bucket array [resize] starts from. *)
Definition fresh (c : Z) : HashMap :=
  clear {| _buckets := replicate (Z.to_nat c) []; _size := 0; _capacity := c |}.

(** [_size] and [_capacity] after an [erase] that finds its key:
    [_size--], and [resize(DOWN)] when the load factor is below 0.25. *)
Definition erase_counters (sc : Z * Z) : Z * Z :=
  (sc.1 - 1, if 4 * (sc.1 - 1) <? sc.2 then sc.2 `quot` 2 else sc.2).

(** The pairs a traversal still has to visit from offset [off] of bucket
    [j] on. *)
Definition rest (m : HashMap) (j off : nat) : list (K * V) :=
  drop off (bucket m (Z.of_nat j)) ++ mjoin (drop (S j) (_buckets m)).

(** An iterator of a traversal: at a stored pair, or at the end of the last
    bucket. *)
Definition at_pair_or_end (m : HashMap) (i : iterator) (j off : nat) : Prop :=
  i = mkIterator (mkVecIt (Z.of_nat j) off) (Z.of_nat j) ∧
  Z.of_nat j < _capacity m ∧
  ((off < length (bucket m (Z.of_nat j)))%nat ∨
   (Z.of_nat j = _capacity m - 1 ∧ off = length (bucket m (Z.of_nat j)))).

(** The value that writing the pairs [kvs] in order leaves at [k]: that of
    the last pair with key [k]. *)
Definition last_written (kvs : list (K * V)) (k : K) : option V :=
  snd <$> last (filter (λ p, p.1 = k) kvs).

(** [_size] and [_capacity] after an [insert] of a new key: [_size++], and
    [resize(UP)] when the load factor is above 0.75. *)
Definition insert_counters (sc : Z * Z) : Z * Z :=
  (sc.1 + 1, if 3 * sc.2 <? 4 * (sc.1 + 1) then sc.2 * 2 else sc.2).

(** *** Client programs

    A sequence of calls of [insert] and [erase], with the results they
    return. *)
Inductive op :=
  | Insert (key : K) (value : V)
  | Erase (key : K).

#[export] Instance op_eq_dec : EqDecision op.
Proof. solve_decision. Defined.

Definition exec (n : nat) (m : HashMap) (o : op) : option (bool * HashMap) :=
  match o with
  | Insert key value => insert n m key value
  | Erase key => erase n m key
  end.

Fixpoint run (n : nat) (m : HashMap) (os : list op)
    : option (list bool * HashMap) :=
  match os with
  | [] => Some ([], m)
  | o :: os' =>
      r ← exec n m o;
      rs ← run n r.2 os';
      Some (r.1 :: rs.1, rs.2)
  end.

(** *** The const [operator[]] and reads through a reference *)

(** The const [operator[]]: the place of the stored value when the key is
    there; otherwise the function runs off its end and returns nothing. *)
Definition subscript_const (m : HashMap) (key : K) : option (Z * nat) :=
  if containsKey m key then
    let h := hashy m key in
    i ← find_key (bucket m h) key;
    Some (h, i)
  else None.

(** Reading through a reference returned by [operator[]]. *)
Definition fetch (m : HashMap) (ref : Z * nat) : option V :=
  snd <$> bucket m ref.1 !! ref.2.

(** *** A reference model of the calls

    A list of pairs without repeated keys: [insert] appends a pair when the
    key is new, [erase] drops the pair of the key. *)
Definition model_exec (l : list (K * V)) (o : op) : bool * list (K * V) :=
  match o with
  | Insert key value =>
      if decide (key ∈ l.*1) then (false, l) else (true, l ++ [(key, value)])
  | Erase key =>
      if decide (key ∈ l.*1) then (true, filter (λ p, p.1 ≠ key) l)
      else (false, l)
  end.

Fixpoint model_run (l : list (K * V)) (os : list op)
    : list bool * list (K * V) :=
  match os with
  | [] => ([], l)
  | o :: os' =>
      let r := model_exec l o in
      let rs := model_run r.2 os' in
      (r.1 :: rs.1, rs.2)
  end.

(** The value that inserting the pairs [kvs] in order leaves at [k]: that of
    the first pair with key [k]. *)
Definition first_written (kvs : list (K * V)) (k : K) : option V :=
  snd <$> head (filter (λ p, p.1 = k) kvs).

(** *** The tables of the public interface *)

(** What the constructors and the public operations keep, [clear] and the
    copy constructor included: the layout, a [_size] that is at least the
    number of stored pairs, and a load factor of at most 0.75. *)
Record sound (m : HashMap) : Prop := {
  sound_layout : layout m;
  sound_size : Z.of_nat (length (entries m)) ≤ _size m;
  sound_load : 4 * _size m ≤ 3 * _capacity m
}.

(** The tables that the constructors and the public operations produce. *)
Inductive built : HashMap → Prop :=
  | built_default : built HashMap_default
  | built_of n a keys values m :
      HashMap_of (S (S n)) a keys values = Some (Returns m) → built m
  | built_copy n m c :
      built m → HashMap_copy (S (S n)) m = Some c → built c
  | built_assign n m c :
      built m → assign (S (S n)) m = Some c → built c
  | built_insert n m key value r m' :
      built m → insert (S (S n)) m key value = Some (r, m') → built m'
  | built_erase n m key r m' :
      built m → erase (S (S n)) m key = Some (r, m') → built m'
  | built_clear m :
      built m → built (clear m)
  | built_subscript n a m key m1 ref :
      built m → subscript (S (S n)) a m key = Some (m1, ref) → built m1
  | built_store n a m key m1 ref value :
      built m → subscript (S (S n)) a m key = Some (m1, ref) →
      built (store m1 ref value)
  | built_store_const m key ref value :
      built m → subscript_const m key = Some ref →
      built (store m ref value).

End HashMap.
Arguments HashMap K V : clear implicits.
Arguments op K V : clear implicits.

(** ** A concrete instance: [int] keys and values *)

#[export] Program Instance Z_hash : Hash Z := {| hash := λ z, z `mod` 2 ^ 64 |}.
Next Obligation. intros k. apply Z.mod_pos_bound. lia. Qed.

(** The table that a sequence of calls on a default-constructed table
    leaves. *)
Definition int_table (os : list (op Z Z)) : HashMap Z Z :=
  default HashMap_default (snd <$> run 2 HashMap_default os).

(** [insert(k, 10 * k)] for the keys [0 .. 12], and [erase(k)] for the keys
    [0 .. 10]. *)
Definition inserts13 : list (op Z Z) := (λ k, Insert k (10 * k)) <$> seqZ 0 13.
Definition erases11 : list (op Z Z) := Erase <$> seqZ 0 11.

(** Key 17 inserted before key 1, eleven more keys (a grow to 32 buckets),
    and six of those erased (a shrink to 16 buckets). *)
Definition grow_then_shrink : list (op Z Z) :=
  [Insert 17 1; Insert 1 2] ++ ((λ k, Insert k 0) <$> seqZ 2 11)
    ++ (Erase <$> seqZ 2 6).

(** The copy-constructed table. *)
Definition int_copy (m : HashMap Z Z) : HashMap Z Z :=
  default HashMap_default (HashMap_copy 2 m).

(** * Properties *)

Section HashMap_facts.
Context {K V : Type} `{EqDecision K, Hash K, EqDecision V}.
Implicit Types (m : HashMap K V) (b : bucket_t K V) (k key : K) (v : V).

(** ** Arithmetic of the mask and of the load factor *)

Lemma land_range (x y : Z) : 0 ≤ x → 0 ≤ y → 0 ≤ Z.land x y ≤ y.
Proof.
  intros Hx Hy. split; [apply Z.land_nonneg; lia|].
  rewrite <- (Z2N.id x), <- (Z2N.id y) at 1 by lia.
  rewrite <- N2Z.inj_land.
  rewrite <- (Z2N.id y) at 2 by lia.
  apply N2Z.inj_le, N.land_le_r.
Qed.

Lemma hashy_range m k : 0 < _capacity m → 0 ≤ hashy m k < _capacity m.
Proof.
  intros Hc. unfold hashy.
  pose proof (hash_range k) as Hk.
  pose proof (land_range (hash k) (_capacity m - 1)). lia.
Qed.

Lemma load_gt_high m :
  0 < _capacity m →
  Qlt_b DEF_HIGH_BOUND (getLoadFactor m) = true ↔ 3 * _capacity m < 4 * _size m.
Proof.
  intros Hc. unfold Qlt_b, getLoadFactor, DEF_HIGH_BOUND.
  rewrite negb_true_iff, <- not_true_iff_false, Qle_bool_iff.
  destruct (_capacity m) as [|c|c] eqn:Ec; try lia.
  unfold Qle, Qdiv, Qmult, Qinv, inject_Z; simpl. lia.
Qed.

Lemma load_lt_low m :
  0 < _capacity m →
  Qlt_b (getLoadFactor m) DEF_LOW_BOUND = true ↔ 4 * _size m < _capacity m.
Proof.
  intros Hc. unfold Qlt_b, getLoadFactor, DEF_LOW_BOUND.
  rewrite negb_true_iff, <- not_true_iff_false, Qle_bool_iff.
  destruct (_capacity m) as [|c|c] eqn:Ec; try lia.
  unfold Qle, Qdiv, Qmult, Qinv, inject_Z; simpl. lia.
Qed.

(** ** The scan of a bucket *)

Lemma find_key_Some b key j :
  find_key b key = Some j →
  ∃ v, b !! j = Some (key, v) ∧ ∀ i p, (i < j)%nat → b !! i = Some p → p.1 ≠ key.
Proof.
  revert j. induction b as [|p b IH]; intros j; simpl; [done|].
  destruct (decide (p.1 = key)) as [<-|Hne].
  - intros [= <-]. exists p.2. split; [by destruct p|]. intros; lia.
  - destruct (find_key b key) as [j'|] eqn:Ej; simpl; [|done].
    intros [= <-]. destruct (IH j' eq_refl) as (v & Hv & Hlt).
    exists v. split; [done|].
    intros [|i] q Hi; simpl; [by intros [= <-]|].
    apply Hlt. lia.
Qed.

Lemma find_key_None b key : find_key b key = None ↔ key ∉ b.*1.
Proof.
  induction b as [|p b IH]; simpl.
  - split; [intros _; apply not_elem_of_nil|done].
  - rewrite not_elem_of_cons. destruct (decide (p.1 = key)) as [<-|Hne].
    + split; [done|]. by intros [].
    + destruct (find_key b key); simpl.
      * split; [done|]. intros [_ Hb]. by apply IH in Hb.
      * split; [|done]. intros _. split; [done|]. by apply IH.
Qed.

Lemma find_key_is_Some b key : is_Some (find_key b key) ↔ key ∈ b.*1.
Proof.
  rewrite <- not_eq_None_Some, find_key_None.
  split; [apply dec_stable|]. tauto.
Qed.

(** ** The class invariant *)

#[local] Hint Resolve wf_layout lay_capacity lay_buckets lay_unique : hm.

Lemma NoDup_fst_agree (l : list (K * V)) k v v' :
  NoDup l.*1 → (k, v) ∈ l → (k, v') ∈ l → v = v'.
Proof.
  induction l as [|p l IH]; simpl; intros Hnd; [by intros ?%elem_of_nil|].
  apply NoDup_cons in Hnd as [Hp Hnd].
  rewrite !elem_of_cons.
  intros [E1|H1] [E2|H2].
  - congruence.
  - subst p. destruct Hp. by apply (list_elem_of_fmap_2 fst) in H2.
  - subst p. destruct Hp. by apply (list_elem_of_fmap_2 fst) in H1.
  - by apply IH.
Qed.

Lemma elem_of_entries m p :
  p ∈ entries m ↔ ∃ (i : nat) b, _buckets m !! i = Some b ∧ p ∈ b.
Proof.
  unfold entries. rewrite list_elem_of_join. split.
  - intros (b & Hp & Hb). apply list_elem_of_lookup in Hb as [i Hi]. eauto.
  - intros (i & b & Hi & Hp). exists b. split; [done|].
    by eapply list_elem_of_lookup_2.
Qed.

Lemma bucket_lookup m (i : nat) b :
  _buckets m !! i = Some b → bucket m (Z.of_nat i) = b.
Proof. intros Hi. unfold bucket. by rewrite Nat2Z.id, Hi. Qed.

Lemma bucket_in_range m (i : Z) :
  0 ≤ i < _capacity m → length (_buckets m) = Z.to_nat (_capacity m) →
  _buckets m !! Z.to_nat i = Some (bucket m i).
Proof.
  intros Hi Hlen. unfold bucket.
  destruct (_buckets m !! Z.to_nat i) eqn:E; [done|].
  apply lookup_ge_None in E. lia.
Qed.

Lemma bucket_hashy m k :
  layout m → _buckets m !! Z.to_nat (hashy m k) = Some (bucket m (hashy m k)).
Proof.
  intros Hwf. apply bucket_in_range; [|apply Hwf].
  apply hashy_range, Hwf.
Qed.

Lemma elem_of_bucket_entries m (i : Z) p : p ∈ bucket m i → p ∈ entries m.
Proof.
  unfold bucket. intros Hp. apply elem_of_entries.
  destruct (_buckets m !! Z.to_nat i) as [b|] eqn:E; simpl in Hp.
  - eauto.
  - by apply elem_of_nil in Hp.
Qed.

Lemma elem_of_entries_bucket m p :
  layout m → p ∈ entries m ↔ p ∈ bucket m (hashy m p.1).
Proof.
  intros Hwf. split; [|apply elem_of_bucket_entries].
  intros (i & b & Hi & Hp)%elem_of_entries.
  rewrite (lay_placed m Hwf i b p Hi Hp). by rewrite (bucket_lookup m i b).
Qed.

Lemma containsKey_spec m k :
  layout m → containsKey m k = true ↔ k ∈ (entries m).*1.
Proof.
  intros Hwf. unfold containsKey, bucketIndex.
  destruct (find_key (bucket m (hashy m k)) k) as [j|] eqn:Ej.
  - split; [intros _|done].
    apply find_key_Some in Ej as (v & Hv & _).
    apply (list_elem_of_fmap_2' fst _ (k, v)); [|done].
    eapply elem_of_bucket_entries, list_elem_of_lookup_2, Hv.
  - split; [done|]. intros (p & -> & Hp)%list_elem_of_fmap.
    apply find_key_None in Ej. destruct Ej.
    apply list_elem_of_fmap_2. by apply elem_of_entries_bucket.
Qed.

Lemma containsKey_false m k :
  layout m → containsKey m k = false ↔ k ∉ (entries m).*1.
Proof.
  intros Hwf. rewrite <- (containsKey_spec m k Hwf).
  by destruct (containsKey m k).
Qed.

Lemma at_spec m k v : layout m → at_ m k = Some v ↔ (k, v) ∈ entries m.
Proof.
  intros Hwf. unfold at_, bucketIndex.
  destruct (find_key (bucket m (hashy m k)) k) as [j|] eqn:Ej; simpl.
  - rewrite Ej; simpl.
    apply find_key_Some in Ej as (v' & Hv & _). rewrite Hv; simpl.
    assert ((k, v') ∈ entries m) as Hin
      by (eapply elem_of_bucket_entries, list_elem_of_lookup_2, Hv).
    split.
    + by intros [= <-].
    + intros Hin'. f_equal.
      eapply NoDup_fst_agree; [apply Hwf|done..].
  - split; [done|]. intros Hin.
    apply find_key_None in Ej. destruct Ej.
    apply (list_elem_of_fmap_2' fst _ (k, v)); [|done].
    by apply (elem_of_entries_bucket m (k, v) Hwf).
Qed.

Lemma at_None m k : layout m → at_ m k = None ↔ containsKey m k = false.
Proof.
  intros Hwf. rewrite containsKey_false by done. split.
  - intros Hat (p & -> & Hp)%list_elem_of_fmap.
    destruct p as [k' v]. apply at_spec in Hp; [|done]. simpl in *. congruence.
  - intros Hk. destruct (at_ m k) as [v|] eqn:E; [|done].
    apply at_spec in E; [|done]. destruct Hk.
    by apply (list_elem_of_fmap_2' fst _ (k, v)).
Qed.

(** ** Replacing one bucket *)

Lemma mjoin_insert (bs : list (bucket_t K V)) (i : nat) b b' :
  bs !! i = Some b →
  ∃ l1 l2, mjoin bs = l1 ++ b ++ l2 ∧ mjoin (<[i:=b']> bs) = l1 ++ b' ++ l2.
Proof.
  intros Hi. exists (mjoin (take i bs)), (mjoin (drop (S i) bs)). split.
  - rewrite <- (take_drop_middle bs i b Hi) at 1. by rewrite join_app.
  - rewrite insert_take_drop by (by eapply lookup_lt_Some).
    by rewrite join_app.
Qed.

(** A table whose bucket [i] is replaced keeps the layout when the new
    bucket holds keys of hash [i] and no key is stored twice. *)
Lemma layout_replace m (i : nat) b b' sz :
  layout m →
  _buckets m !! i = Some b →
  (∀ p, p ∈ b' → hashy m p.1 = Z.of_nat i) →
  NoDup (mjoin (<[i:=b']> (_buckets m))).*1 →
  layout {| _buckets := <[i:=b']> (_buckets m);
            _size := sz;
            _capacity := _capacity m |}.
Proof.
  intros Hl Hi Hb' Hnd. split; simpl.
  - apply Hl.
  - rewrite length_insert. apply Hl.
  - intros i' b0 p Hi' Hp. unfold hashy; simpl.
    destruct (decide (i = i')) as [<-|Hne].
    + rewrite list_lookup_insert_eq in Hi' by (by eapply lookup_lt_Some).
      injection Hi' as <-. by apply Hb'.
    + rewrite list_lookup_insert_ne in Hi' by done.
      by apply (lay_placed m Hl i' b0 p).
  - done.
Qed.

(** ** [insert] without a resize *)

#[local] Arguments insert : simpl never.

Lemma insert_unfold n m key value :
  insert (S n) m key value =
    if containsKey m key then Some (false, m)
    else if Qlt_b DEF_HIGH_BOUND (getLoadFactor (pushed m key value))
         then m2 ← resize n UP (pushed m key value); Some (true, m2)
         else Some (true, pushed m key value).
Proof. reflexivity. Qed.

Lemma pushed_entries m key value :
  layout m → entries (pushed m key value) ≡ₚ entries m ++ [(key, value)].
Proof.
  intros Hl. unfold entries, pushed; simpl.
  destruct (mjoin_insert (_buckets m) (Z.to_nat (hashy m key))
              (bucket m (hashy m key))
              (bucket m (hashy m key) ++ [(key, value)]))
    as (l1 & l2 & -> & ->); [by apply bucket_hashy|].
  rewrite <- !(assoc_L (++)). apply Permutation_app_head.
  apply Permutation_app_head. apply Permutation_app_comm.
Qed.

Lemma pushed_layout m key value :
  layout m → containsKey m key = false → layout (pushed m key value).
Proof.
  intros Hl Hk.
  pose proof (hashy_range m key (lay_capacity m Hl)) as Hr.
  eapply layout_replace; [done|by apply bucket_hashy| |].
  - intros p [Hp|Hp%list_elem_of_singleton]%elem_of_app.
    + eapply (lay_placed m Hl); [by apply bucket_hashy|done].
    + subst p; simpl. lia.
  - change (NoDup (entries (pushed m key value)).*1).
    rewrite (pushed_entries m key value Hl), fmap_app; simpl.
    apply NoDup_app. split; [apply Hl|]. split; [|apply NoDup_singleton].
    intros k Hin ->%list_elem_of_singleton.
    by apply containsKey_false in Hk.
Qed.

Lemma pushed_wf m key value :
  wf m → containsKey m key = false →
  4 * (_size m + 1) ≤ 3 * _capacity m →
  wf (pushed m key value).
Proof.
  intros Hwf Hk Hload. split.
  - apply pushed_layout; auto with hm.
  - rewrite (pushed_entries m key value) by auto with hm.
    rewrite length_app; simpl. rewrite (wf_size m Hwf). lia.
  - done.
Qed.

Lemma insert_no_resize n m key value :
  wf m → containsKey m key = false →
  4 * (_size m + 1) ≤ 3 * _capacity m →
  insert (S n) m key value = Some (true, pushed m key value).
Proof.
  intros Hwf Hk Hload. rewrite insert_unfold, Hk.
  destruct (Qlt_b _ _) eqn:E; [|done].
  apply load_gt_high in E; simpl in *; [lia|]. apply Hwf.
Qed.

(** ** Rehashing *)

Lemma reinsert_buckets_join ins (bs : list (bucket_t K V)) m :
  reinsert_buckets ins bs m = reinsert ins (mjoin bs) m.
Proof.
  revert m. induction bs as [|b bs IH]; intros m; simpl; [done|].
  revert m. induction b as [|p b IHb]; intros m; simpl.
  - destruct bs; [done|apply IH].
  - destruct (ins m p.1 p.2) as [r|]; simpl; [apply IHb|done].
Qed.

(** Inserting pairs with fresh, distinct keys into a table with room for
    them: no resize happens, and the pairs are added. *)
Lemma reinsert_spec n (ps : list (K * V)) m :
  wf m →
  NoDup ps.*1 →
  (∀ k, k ∈ ps.*1 → k ∉ (entries m).*1) →
  4 * (_size m + Z.of_nat (length ps)) ≤ 3 * _capacity m →
  ∃ m', reinsert (insert (S n)) ps m = Some m' ∧ wf m' ∧
        _capacity m' = _capacity m ∧ entries m' ≡ₚ entries m ++ ps.
Proof.
  revert m. induction ps as [|[k v] ps IH]; intros m Hwf Hnd Hfresh Hroom; simpl.
  - exists m. by rewrite (right_id_L [] (++)).
  - simpl in Hnd. apply NoDup_cons in Hnd as [Hk Hnd].
    assert (containsKey m k = false) as Hc.
    { apply containsKey_false; [auto with hm|]. apply Hfresh; simpl. left. }
    rewrite insert_no_resize by (done || simpl in Hroom; lia). simpl.
    destruct (IH (pushed m k v)) as (m' & Hre & Hwf' & Hcap & Hent).
    + apply pushed_wf; [done..|]. simpl in Hroom. lia.
    + done.
    + intros k' Hk'.
      rewrite (pushed_entries m k v) by auto with hm.
      rewrite fmap_app, not_elem_of_app; simpl. split.
      * apply Hfresh; simpl. by right.
      * rewrite list_elem_of_singleton. by intros ->.
    + simpl in *. lia.
    + exists m'. split; [done|]. split; [done|]. split; [done|].
      rewrite Hent, (pushed_entries m k v) by auto with hm.
      by rewrite <- (assoc_L (++)).
Qed.

Lemma mjoin_replicate_nil (n : nat) : mjoin (replicate n (@nil (K * V))) = [].
Proof. induction n; simpl; [done|]. by rewrite IHn. Qed.

Lemma entries_fresh c : entries (fresh c) = @nil (K * V).
Proof.
  unfold entries, fresh, clear; simpl.
  rewrite fmap_replicate. apply mjoin_replicate_nil.
Qed.

Lemma wf_fresh c : 0 < c → wf (fresh c : HashMap K V).
Proof.
  intros Hc. split; [split|..]; rewrite ?entries_fresh; simpl; try done; try lia.
  - by rewrite length_fmap, length_replicate.
  - intros i b p. rewrite fmap_replicate.
    intros [-> _]%lookup_replicate. by intros ?%elem_of_nil.
  - apply NoDup_nil_2.
Qed.

Lemma resize_spec n way m c' :
  layout m →
  c' = match way with UP => _capacity m * 2 | DOWN => _capacity m `quot` 2 end →
  0 < c' →
  4 * Z.of_nat (length (entries m)) ≤ 3 * c' →
  ∃ m', resize (S n) way m = Some m' ∧ wf m' ∧
        _capacity m' = c' ∧ entries m' ≡ₚ entries m.
Proof.
  intros Hl Hc' Hpos Hroom. unfold resize, resize_with.
  rewrite reinsert_buckets_join, take_ge by (rewrite (lay_buckets m Hl); lia).
  cbv zeta. rewrite <- Hc'. change (clear _) with (@fresh K V c').
  destruct (reinsert_spec n (entries m) (@fresh K V c')) as (m' & Hre & Hwf & Hcap & Hent).
  - by apply wf_fresh.
  - apply Hl.
  - intros k _. rewrite entries_fresh. apply not_elem_of_nil.
  - simpl. lia.
  - exists m'. rewrite entries_fresh in Hent. fold (entries m).
    by rewrite Hre, Hent.
Qed.

(** ** [insert] *)

Lemma insert_spec n m key value :
  wf m →
  ∃ r m', insert (S (S n)) m key value = Some (r, m') ∧ wf m' ∧
    if containsKey m key then r = false ∧ m' = m
    else r = true ∧ entries m' ≡ₚ entries m ++ [(key, value)] ∧
         _capacity m' =
           if 3 * _capacity m <? 4 * (_size m + 1)
           then _capacity m * 2 else _capacity m.
Proof.
  intros Hwf. rewrite insert_unfold.
  pose proof (lay_capacity m (wf_layout m Hwf)) as Hcap.
  pose proof (wf_load m Hwf) as Hload.
  pose proof (wf_size m Hwf) as Hsize.
  destruct (containsKey m key) eqn:Hk; [by exists false, m|].
  destruct (Qlt_b _ _) eqn:E.
  - apply load_gt_high in E; [|done]. simpl in E.
    destruct (resize_spec n UP (pushed m key value) (_capacity m * 2))
      as (m' & Hre & Hwf' & Hc & Hent).
    + apply pushed_layout; auto with hm.
    + done.
    + lia.
    + rewrite pushed_entries, length_app by auto with hm. simpl. lia.
    + exists true, m'. rewrite Hre; simpl. split; [done|]. split; [done|].
      split; [done|]. split; [by rewrite Hent, pushed_entries by auto with hm|].
      rewrite Hc. destruct (Z.ltb_spec (3 * _capacity m) (4 * (_size m + 1))); lia.
  - apply not_true_iff_false in E. rewrite load_gt_high in E by done.
    simpl in E. exists true, (pushed m key value).
    split; [done|]. split; [apply pushed_wf; (done || lia)|].
    split; [done|]. split; [apply pushed_entries; auto with hm|].
    simpl. destruct (Z.ltb_spec (3 * _capacity m) (4 * (_size m + 1))); lia.
Qed.

(** ** [erase] *)

Lemma erase_unfold n m key :
  erase n m key =
    match bucketIndex m key with
    | None => Some (false, m)
    | Some i =>
        j ← find_key (bucket m i) key;
        if Qlt_b (getLoadFactor (erased m i j)) DEF_LOW_BOUND
        then m2 ← resize n DOWN (erased m i j); Some (true, m2)
        else Some (true, erased m i j)
    end.
Proof. reflexivity. Qed.

Lemma erased_entries m key j v :
  layout m →
  bucket m (hashy m key) !! j = Some (key, v) →
  entries m ≡ₚ (key, v) :: entries (erased m (hashy m key) j).
Proof.
  intros Hl Hj. unfold entries, erased; simpl.
  destruct (mjoin_insert (_buckets m) (Z.to_nat (hashy m key))
              (bucket m (hashy m key))
              (delete j (bucket m (hashy m key))))
    as (l1 & l2 & -> & ->); [by apply bucket_hashy|].
  rewrite (delete_Permutation _ _ _ Hj) at 1. simpl.
  symmetry. apply Permutation_middle.
Qed.

Lemma erased_layout m key j v :
  layout m →
  bucket m (hashy m key) !! j = Some (key, v) →
  layout (erased m (hashy m key) j).
Proof.
  intros Hl Hj.
  eapply layout_replace; [done|by apply bucket_hashy| |].
  - intros p Hp. eapply (lay_placed m Hl); [by apply bucket_hashy|].
    rewrite (delete_Permutation _ _ _ Hj). by right.
  - change (NoDup (entries (erased m (hashy m key) j)).*1).
    pose proof (lay_unique m Hl) as Hnd.
    rewrite (erased_entries m key j v Hl Hj) in Hnd.
    simpl in Hnd. by apply NoDup_cons in Hnd as [_ ?].
Qed.

Lemma erase_spec n m key :
  wf m →
  ∃ r m', erase (S n) m key = Some (r, m') ∧ wf m' ∧
    if containsKey m key
    then r = true ∧ (∃ v, entries m ≡ₚ (key, v) :: entries m') ∧
         _capacity m' =
           if 4 * (_size m - 1) <? _capacity m
           then _capacity m `quot` 2 else _capacity m
    else r = false ∧ m' = m.
Proof.
  intros Hwf. rewrite erase_unfold. unfold containsKey, bucketIndex.
  pose proof (wf_layout m Hwf) as Hl.
  pose proof (lay_capacity m Hl) as Hcap.
  pose proof (wf_load m Hwf) as Hload.
  pose proof (wf_size m Hwf) as Hsize.
  destruct (find_key (bucket m (hashy m key)) key) as [j|] eqn:Ej;
    [|by exists false, m].
  simpl. rewrite Ej; simpl.
  apply find_key_Some in Ej as (v & Hj & _).
  pose proof (erased_entries m key j v Hl Hj) as Hent.
  pose proof (erased_layout m key j v Hl Hj) as Hl'.
  assert (_size m = Z.of_nat (length (entries (erased m (hashy m key) j))) + 1)
    as Hsz by (rewrite Hsize, Hent; simpl; lia).
  destruct (Qlt_b _ _) eqn:E.
  - apply load_lt_low in E; [|done]. simpl in E.
    assert (_capacity m `quot` 2 = _capacity m `div` 2) as Hq
      by (apply Z.quot_div_nonneg; lia).
    pose proof (Z.div_mod (_capacity m) 2) as Hdm.
    pose proof (Z.mod_pos_bound (_capacity m) 2) as Hmb.
    destruct (resize_spec n DOWN (erased m (hashy m key) j) (_capacity m `quot` 2))
      as (m' & Hre & Hwf' & Hc & Hent'); [done|done|simpl in *; lia..|].
    exists true, m'. rewrite Hre; simpl. split; [done|]. split; [done|].
    split; [done|]. split; [exists v; by rewrite Hent'|].
    rewrite Hc. destruct (Z.ltb_spec (4 * (_size m - 1)) (_capacity m)); lia.
  - apply not_true_iff_false in E. rewrite load_lt_low in E by done.
    simpl in E. exists true, (erased m (hashy m key) j).
    split; [done|]. split; [|split; [done|]; split; [by exists v|]].
    + split; [done|simpl; lia..].
    + simpl. destruct (Z.ltb_spec (4 * (_size m - 1)) (_capacity m)); lia.
Qed.

(** ** The bindings after [insert] and [erase] *)

Lemma keys_Permutation (l l' : list (K * V)) : l ≡ₚ l' → l.*1 ≡ₚ l'.*1.
Proof. intros Hp. by rewrite Hp. Qed.

Lemma at_elem_of m m' k :
  layout m → layout m' →
  (∀ v, (k, v) ∈ entries m' ↔ (k, v) ∈ entries m) →
  at_ m' k = at_ m k.
Proof.
  intros Hl Hl' Hiff. destruct (at_ m k) as [v|] eqn:E.
  - apply at_spec; [done|]. apply Hiff. by apply at_spec.
  - destruct (at_ m' k) as [v'|] eqn:E'; [|done].
    apply at_spec, Hiff, at_spec in E'; [congruence|done..].
Qed.

Lemma containsKey_at m k : layout m → containsKey m k = true ↔ is_Some (at_ m k).
Proof.
  intros Hl. rewrite <- not_eq_None_Some, at_None by done.
  by destruct (containsKey m k).
Qed.

Lemma insert_at n m key value r m' :
  wf m → insert (S (S n)) m key value = Some (r, m') →
  wf m' ∧ r = negb (containsKey m key) ∧
  _size m' = (if containsKey m key then _size m else _size m + 1) ∧
  ∀ k, at_ m' k =
         if decide (k = key)
         then (if containsKey m key then at_ m key else Some value)
         else at_ m k.
Proof.
  intros Hwf Hins.
  destruct (insert_spec n m key value Hwf) as (r0 & m0 & Hins' & Hwf' & Hcase).
  rewrite Hins in Hins'. injection Hins' as <- <-. split; [done|].
  destruct (containsKey m key) eqn:Hk.
  - destruct Hcase as [-> ->]. repeat split; try done.
    intros k. by destruct (decide (k = key)) as [->|].
  - destruct Hcase as (-> & Hent & _). split; [done|]. split.
    + rewrite (wf_size m' Hwf'), (wf_size m Hwf), Hent, length_app. simpl. lia.
    + intros k. destruct (decide (k = key)) as [->|Hne].
      * apply at_spec; [auto with hm|]. rewrite Hent, elem_of_app.
        right. by apply list_elem_of_singleton.
      * apply at_elem_of; [auto with hm..|]. intros v.
        rewrite Hent, elem_of_app, list_elem_of_singleton.
        split; [intros [?|[=]]; done|by left].
Qed.

Lemma erase_at n m key r m' :
  wf m → erase (S n) m key = Some (r, m') →
  wf m' ∧ r = containsKey m key ∧
  _size m' = (if containsKey m key then _size m - 1 else _size m) ∧
  ∀ k, at_ m' k = if decide (k = key) then None else at_ m k.
Proof.
  intros Hwf Her.
  destruct (erase_spec n m key Hwf) as (r0 & m0 & Her' & Hwf' & Hcase).
  rewrite Her in Her'. injection Her' as <- <-. split; [done|].
  destruct (containsKey m key) eqn:Hk.
  - destruct Hcase as (-> & [v Hent] & _). split; [done|]. split.
    + rewrite (wf_size m' Hwf'), (wf_size m Hwf), Hent. simpl. lia.
    + pose proof (lay_unique m (wf_layout m Hwf)) as Hnd.
      rewrite Hent in Hnd. simpl in Hnd. apply NoDup_cons in Hnd as [Hk' _].
      intros k. destruct (decide (k = key)) as [->|Hne].
      * apply at_None; [auto with hm|]. apply containsKey_false; auto with hm.
      * apply at_elem_of; [auto with hm..|]. intros v'.
        rewrite Hent, elem_of_cons. split; [by right|]. by intros [[=]|?].
  - destruct Hcase as [-> ->]. repeat split; try done.
    intros k. destruct (decide (k = key)) as [->|]; [|done].
    apply at_None; auto with hm.
Qed.

(** ** Sequences of calls *)

Lemma wf_default : wf (HashMap_default : HashMap K V).
Proof.
  assert (entries (HashMap_default : HashMap K V) = []) as Hent
    by apply mjoin_replicate_nil.
  split; [split|..]; rewrite ?Hent; try done.
  - intros i b p. unfold HashMap_default; cbn [_buckets].
    intros [-> _]%lookup_replicate. by intros ?%elem_of_nil.
  - apply NoDup_nil_2.
Qed.

Lemma at_default k : at_ (HashMap_default : HashMap K V) k = None.
Proof.
  pose proof (wf_layout _ wf_default) as Hl.
  apply at_None; [done|]. apply containsKey_false; [done|].
  replace (entries HashMap_default) with (@nil (K * V))
    by (symmetry; apply mjoin_replicate_nil).
  apply not_elem_of_nil.
Qed.

Lemma exec_spec n m o :
  wf m → ∃ r m', exec (S (S n)) m o = Some (r, m') ∧ wf m'.
Proof.
  intros Hwf. destruct o as [key value|key]; simpl.
  - destruct (insert_spec n m key value Hwf) as (r & m' & ? & ? & _). eauto.
  - destruct (erase_spec (S n) m key Hwf) as (r & m' & ? & ? & _). eauto.
Qed.

Lemma exec_at n m o r m' :
  wf m → exec (S (S n)) m o = Some (r, m') →
  wf m' ∧
  match o with
  | Insert key value =>
      r = negb (containsKey m key) ∧
      ∀ k, at_ m' k =
             if decide (k = key)
             then (if containsKey m key then at_ m key else Some value)
             else at_ m k
  | Erase key =>
      r = containsKey m key ∧
      ∀ k, at_ m' k = if decide (k = key) then None else at_ m k
  end.
Proof.
  intros Hwf Hex. destruct o as [key value|key]; simpl in Hex.
  - apply insert_at in Hex as (? & ? & _ & ?); done.
  - apply erase_at in Hex as (? & ? & _ & ?); done.
Qed.

Lemma run_cons n m o os :
  run n m (o :: os) =
    r ← exec n m o; rs ← run n r.2 os; Some (r.1 :: rs.1, rs.2).
Proof. reflexivity. Qed.

(** A binding outlives every call that is not an [erase] of its key; a
    successful [insert] makes a binding. *)
Lemma run_keeps n os m :
  wf m →
  ∃ rs m', run (S (S n)) m os = Some (rs, m') ∧ wf m' ∧
    length rs = length os ∧
    (∀ k v, at_ m k = Some v → Erase k ∉ os → at_ m' k = Some v) ∧
    (∀ (i : nat) k v,
       os !! i = Some (Insert k v) → rs !! i = Some true →
       Erase k ∉ drop (S i) os → at_ m' k = Some v).
Proof.
  revert m. induction os as [|o os IH]; intros m Hwf.
  { exists [], m. do 4 (split; [done|]). intros i k v; by rewrite lookup_nil. }
  destruct (exec_spec n m o Hwf) as (r & m1 & Hex & Hwf1).
  destruct (IH m1 Hwf1) as (rs & m' & Hrun & Hwf' & Hlen & Hold & Hnew).
  exists (r :: rs), m'. rewrite run_cons, Hex; simpl. rewrite Hrun; simpl.
  split; [done|]. split; [done|]. split; [by rewrite Hlen|].
  apply exec_at in Hex as [_ Hex]; [|done].
  split.
  - intros k v Hk [Ho Hos]%not_elem_of_cons. apply Hold; [|done].
    destruct o as [key value|key]; destruct Hex as [_ ->].
    + destruct (decide (k = key)) as [->|]; [|done].
      destruct (containsKey m key) eqn:Hc; [done|].
      apply at_None in Hc; [congruence|auto with hm].
    + destruct (decide (k = key)) as [->|]; [done|done].
  - intros [|i] k v; simpl.
    + intros [= ->] [= ->] Hos. apply Hold; [|done].
      destruct Hex as [Hr ->]. rewrite decide_True by done.
      by destruct (containsKey m k).
    + apply Hnew.
Qed.

(** ** The capacity *)

Lemma exec_capacity n m o r m' :
  wf m → exec (S (S n)) m o = Some (r, m') →
  _capacity m' = _capacity m ∨ _capacity m' = _capacity m * 2 ∨
  (_capacity m' = _capacity m `quot` 2 ∧ 4 * _size m' < _capacity m).
Proof.
  intros Hwf Hex. destruct o as [key value|key]; simpl in Hex.
  - destruct (insert_spec n m key value Hwf) as (r0 & m0 & Hins & Hwf' & Hcase).
    rewrite Hex in Hins. injection Hins as <- <-.
    destruct (containsKey m key); [destruct Hcase as [_ ->]; by left|].
    destruct Hcase as (_ & _ & ->). destruct (_ <? _); auto.
  - pose proof (erase_at _ _ _ _ _ Hwf Hex) as (_ & _ & Hsz & _).
    destruct (erase_spec (S n) m key Hwf) as (r0 & m0 & Her & Hwf' & Hcase).
    rewrite Hex in Her. injection Her as <- <-.
    destruct (containsKey m key); [|destruct Hcase as [_ ->]; by left].
    destruct Hcase as (_ & _ & ->).
    destruct (Z.ltb_spec (4 * (_size m - 1)) (_capacity m)); [|by left].
    right; right. split; [done|lia].
Qed.

Lemma pow2_half (c : Z) (e : nat) :
  c = 2 ^ Z.of_nat e → 0 < c `quot` 2 → ∃ e' : nat, c `quot` 2 = 2 ^ Z.of_nat e'.
Proof.
  intros -> Hpos. destruct e as [|e]; [done|]. exists e.
  rewrite Nat2Z.inj_succ, Z.pow_succ_r by lia.
  rewrite Z.mul_comm. apply Z.quot_mul. lia.
Qed.

Lemma run_erases n (ks : list K) m :
  wf m → NoDup ks → (∀ k, k ∈ ks → containsKey m k = true) →
  ∃ m', run (S (S n)) m (Erase <$> ks) = Some (replicate (length ks) true, m') ∧
        wf m' ∧
        (_size m', _capacity m') =
          foldl (λ sc _, erase_counters sc) (_size m, _capacity m) ks ∧
        ∀ k, at_ m' k = if decide (k ∈ ks) then None else at_ m k.
Proof.
  revert m. induction ks as [|k ks IH]; intros m Hwf Hnd Hin.
  { exists m. do 3 (split; [done|]). intros k. by rewrite decide_False by apply not_elem_of_nil. }
  apply NoDup_cons in Hnd as [Hk Hnd].
  assert (containsKey m k = true) as Hc by (apply Hin; left).
  destruct (erase_spec (S n) m k Hwf) as (r & m1 & Her & Hwf1 & Hcase).
  pose proof (erase_at _ _ _ _ _ Hwf Her) as (_ & _ & Hsz & Hat).
  rewrite Hc in Hcase, Hsz. destruct Hcase as (-> & _ & Hcap).
  destruct (IH m1 Hwf1 Hnd) as (m' & Hrun & Hwf' & Hsc & Hat').
  - intros k' Hk'. apply containsKey_at; [auto with hm|].
    rewrite Hat, decide_False by (by intros ->).
    apply containsKey_at; [auto with hm|]. apply Hin. by right.
  - exists m'. rewrite fmap_cons, run_cons. cbn [exec]. rewrite Her; simpl.
    rewrite Hrun; simpl. split; [done|]. split; [done|]. split.
    + rewrite Hsc, Hsz, Hcap. done.
    + intros k'. rewrite Hat', Hat.
      destruct (decide (k' = k)) as [->|Hne].
      * rewrite (decide_True (P := k ∈ k :: ks)) by left. by destruct (decide _).
      * destruct (decide (k' ∈ ks)) as [Hi|Hi].
        -- by rewrite decide_True by (by right).
        -- rewrite decide_False; [done|]. by apply not_elem_of_cons.
Qed.

Lemma load_le_high m :
  0 < _capacity m →
  (getLoadFactor m <= DEF_HIGH_BOUND)%Q ↔ 4 * _size m ≤ 3 * _capacity m.
Proof.
  intros Hc. unfold getLoadFactor, DEF_HIGH_BOUND.
  destruct (_capacity m) as [|c|c] eqn:Ec; try lia.
  unfold Qle, Qdiv, Qmult, Qinv, inject_Z; simpl. lia.
Qed.

Lemma load_ge_low m :
  0 < _capacity m →
  (DEF_LOW_BOUND <= getLoadFactor m)%Q ↔ _capacity m ≤ 4 * _size m.
Proof.
  intros Hc. unfold getLoadFactor, DEF_LOW_BOUND.
  destruct (_capacity m) as [|c|c] eqn:Ec; try lia.
  unfold Qle, Qdiv, Qmult, Qinv, inject_Z; simpl. lia.
Qed.

(** ** Traversal *)

Section traversal.
Context (m : HashMap K V).
Hypothesis Hcap : 0 < _capacity m.
Hypothesis Hlen : length (_buckets m) = Z.to_nat (_capacity m).

Lemma bucket_nat (j : nat) :
  Z.of_nat j < _capacity m →
  _buckets m !! j = Some (bucket m (Z.of_nat j)).
Proof.
  intros Hj. rewrite <- (Nat2Z.id j) at 1. apply bucket_in_range; [lia|done].
Qed.

Lemma rest_next_bucket (j : nat) :
  Z.of_nat j < _capacity m - 1 →
  rest m j (length (bucket m (Z.of_nat j))) = rest m (S j) 0.
Proof.
  intros Hj. unfold rest. rewrite drop_all; simpl.
  rewrite (drop_S _ (bucket m (Z.of_nat (S j))) (S j)); [done|].
  apply bucket_nat. lia.
Qed.

Lemma rest_end (j : nat) :
  Z.of_nat j = _capacity m - 1 →
  rest m j (length (bucket m (Z.of_nat j))) = [].
Proof.
  intros Hj. unfold rest. rewrite drop_all, drop_ge by lia. done.
Qed.

Lemma rest_step (j off : nat) p :
  bucket m (Z.of_nat j) !! off = Some p →
  rest m j off = p :: rest m j (S off).
Proof. intros Hp. unfold rest. by rewrite (drop_S _ p off). Qed.

Lemma skip_loop_spec (n j off : nat) :
  n = Z.to_nat (_capacity m - 1 - Z.of_nat j) →
  Z.of_nat j < _capacity m →
  (off ≤ length (bucket m (Z.of_nat j)))%nat →
  ∃ j' off',
    at_pair_or_end m
      (skip_loop n m (mkVecIt (Z.of_nat j) off) (Z.of_nat j)) j' off' ∧
    rest m j' off' = rest m j off.
Proof.
  revert j off. induction n as [|n IH]; intros j off Hn Hj Hoff; simpl.
  - exists j, off. split; [|done]. split; [done|]. split; [done|].
    destruct (decide (off = length (bucket m (Z.of_nat j)))); [right|left]; lia.
  - unfold vec_end.
    destruct (decide (off = length (bucket m (Z.of_nat j)))) as [->|Hne].
    + rewrite bool_decide_eq_true_2 by done.
      rewrite (proj2 (Z.ltb_lt _ _)) by lia. simpl.
      destruct (IH (S j) 0%nat) as (j' & off' & Hok & Hrest); [lia..|].
      exists j', off'. unfold vec_begin.
      replace (Z.of_nat j + 1) with (Z.of_nat (S j)) by lia.
      split; [done|]. rewrite Hrest. symmetry. apply rest_next_bucket. lia.
    + rewrite bool_decide_eq_false_2 by (intros [=]; done). simpl.
      exists j, off. split; [|done]. split; [done|]. split; [done|]. left. lia.
Qed.

Lemma traverse_spec (n : nat) i (j off : nat) :
  at_pair_or_end m i j off →
  (length (rest m j off) ≤ n)%nat →
  traverse n m i = Some (rest m j off).
Proof.
  revert i j off. induction n as [|n IH]; intros i j off (-> & Hj & Hpos) Hn.
  - destruct Hpos as [Hlt|[Hlast ->]].
    + apply lookup_lt_is_Some in Hlt as [p Hp].
      rewrite (rest_step j off p Hp) in Hn. simpl in Hn. lia.
    + simpl. unfold iterator_ne, iterator_eq, end_, vec_end; simpl.
      rewrite <- Hlast, bool_decide_eq_true_2 by done. simpl.
      by rewrite rest_end.
  - destruct Hpos as [Hlt|[Hlast ->]].
    + pose proof Hlt as [p Hp]%lookup_lt_is_Some.
      rewrite (rest_step j off p Hp) in Hn |- *. simpl in Hn.
      simpl. unfold iterator_ne, iterator_eq, end_, vec_end; simpl.
      rewrite bool_decide_eq_false_2; simpl.
      2:{ intros [= Hb Ho]. rewrite <- Hb in Ho. lia. }
      unfold deref; simpl. rewrite Hp; simpl.
      unfold incr, vec_next; simpl.
      destruct (skip_loop_spec (Z.to_nat (_capacity m - 1 - Z.of_nat j)) j (S off))
        as (j' & off' & Hok & Hrest); [done|done|lia|].
      rewrite (IH _ j' off' Hok) by (rewrite Hrest; lia). simpl.
      by rewrite Hrest.
    + simpl. unfold iterator_ne, iterator_eq, end_, vec_end; simpl.
      rewrite <- Hlast, bool_decide_eq_true_2 by done. simpl.
      by rewrite rest_end.
Qed.

Lemma first_loop_spec (n i : nat) :
  n = Z.to_nat (_capacity m - Z.of_nat i) →
  Z.of_nat i ≤ _capacity m →
  ∃ f : nat,
    first_loop n m (Z.of_nat i) = Z.of_nat f ∧ Z.of_nat f ≤ _capacity m ∧
    (Z.of_nat f < _capacity m → bucket m (Z.of_nat f) ≠ []) ∧
    mjoin (drop i (_buckets m)) = mjoin (drop f (_buckets m)).
Proof.
  revert i. induction n as [|n IH]; intros i Hn Hi; simpl.
  - exists (Z.to_nat (_capacity m)). rewrite Z2Nat.id by lia.
    split; [done|]. split; [done|]. split; [lia|].
    replace i with (Z.to_nat (_capacity m)) by lia. done.
  - destruct (bucket m (Z.of_nat i)) as [|p b] eqn:Eb.
    + destruct (IH (S i)) as (f & Hf & Hle & Hne & Hj); [lia..|].
      exists f. replace (Z.of_nat i + 1) with (Z.of_nat (S i)) by lia.
      split; [done|]. split; [done|]. split; [done|].
      rewrite <- Hj. rewrite (drop_S _ [] i); [done|].
      rewrite <- Eb. apply bucket_nat. lia.
    + exists i. rewrite Eb. done.
Qed.

(** A full traversal visits the stored pairs bucket by bucket, and
    within a bucket in the order of insertion. *)
Lemma traverse_begin (n : nat) :
  (length (entries m) ≤ n)%nat →
  traverse n m (begin m) = Some (entries m).
Proof.
  intros Hn. unfold begin, first.
  destruct (first_loop_spec (Z.to_nat (_capacity m)) 0)
    as (f & Hf & Hle & Hne & Hj); [lia..|].
  change (Z.of_nat 0) with 0 in Hf. rewrite Hf.
  rewrite drop_0 in Hj. fold (entries m) in Hj.
  destruct (Z.eqb_spec (Z.of_nat f) (_capacity m)) as [Hfc|Hfc].
  - rewrite drop_ge in Hj by lia. simpl in Hj.
    destruct (Z_of_nat_complete (_capacity m - 1)) as [jl Hjl]; [lia|].
    assert (at_pair_or_end m (end_ m) jl (length (bucket m (Z.of_nat jl))))
      as Hok.
    { unfold at_pair_or_end, end_, vec_end. rewrite Hjl.
      split; [done|]. split; [lia|]. by right. }
    rewrite (traverse_spec n _ _ _ Hok); rewrite rest_end by lia;
      [by rewrite Hj|simpl; lia].
  - assert (rest m f 0 = entries m) as Hrest.
    { unfold rest. rewrite drop_0, Hj.
      rewrite (drop_S _ (bucket m (Z.of_nat f)) f); [done|].
      apply bucket_nat. lia. }
    rewrite (traverse_spec n _ f 0%nat); rewrite ?Hrest; [done| |done].
    split; [done|]. split; [lia|]. left.
    destruct (bucket m (Z.of_nat f)); [by destruct Hne; [lia|]|simpl; lia].
Qed.

Lemma items_spec : items m = Some (entries m).
Proof. unfold items. by apply traverse_begin. Qed.

Lemma begin_end_empty : entries m = [] → begin m = end_ m.
Proof.
  intros Hent. unfold begin, first.
  destruct (first_loop_spec (Z.to_nat (_capacity m)) 0)
    as (f & Hf & Hle & Hne & Hj); [lia..|].
  change (Z.of_nat 0) with 0 in Hf. rewrite Hf.
  destruct (Z.eqb_spec (Z.of_nat f) (_capacity m)) as [Hfc|Hfc]; [done|].
  rewrite drop_0 in Hj. fold (entries m) in Hj. rewrite Hent in Hj.
  rewrite (drop_S _ (bucket m (Z.of_nat f)) f) in Hj by (apply bucket_nat; lia).
  simpl in Hj. symmetry in Hj. apply app_eq_nil in Hj as [Hb _].
  destruct Hne; [lia|done].
Qed.
End traversal.

(** ** Equality *)

Lemma entries_NoDup m : layout m → NoDup (entries m).
Proof. intros Hl. eapply NoDup_fmap_1, Hl. Qed.

Lemma equal_spec (a b : HashMap K V) :
  wf a → wf b →
  ∃ r, equal a b = Some r ∧
       (r = true ↔
          _size a = _size b ∧ ∀ k v, at_ b k = Some v → at_ a k = Some v).
Proof.
  intros Ha Hb. unfold equal.
  rewrite (items_spec b) by eauto with hm. simpl.
  destruct (Z.eqb_spec (_size a) (_size b)) as [Hs|Hs]; simpl.
  - eexists. split; [done|]. rewrite forallb_forall. split.
    + intros Hall. split; [done|]. intros k v Hk.
      apply at_spec in Hk; [|auto with hm].
      apply list_elem_of_In, Hall in Hk. simpl in Hk.
      destruct (at_ a k) as [v'|]; [|done].
      by apply bool_decide_eq_true in Hk as ->.
    + intros [_ Hall] [k v] Hin%list_elem_of_In. simpl.
      apply at_spec, Hall in Hin; [|auto with hm]. rewrite Hin.
      by apply bool_decide_eq_true.
  - exists false. split; [done|]. split; [done|]. by intros [? _].
Qed.

(** Two tables of one size, one of which holds the bindings of the other,
    hold the same bindings. *)
Lemma bindings_sym (a b : HashMap K V) :
  wf a → wf b → _size a = _size b →
  (∀ k v, at_ b k = Some v → at_ a k = Some v) →
  ∀ k v, at_ a k = Some v → at_ b k = Some v.
Proof.
  intros Ha Hb Hs Hsub k v Hk.
  assert (entries b ≡ₚ entries a) as Hperm.
  { apply submseteq_length_Permutation.
    - apply NoDup_submseteq; [apply entries_NoDup; auto with hm|].
      intros [k' v'] Hin. apply at_spec; [auto with hm|].
      apply Hsub. apply at_spec; [auto with hm|done].
    - rewrite (wf_size a Ha), (wf_size b Hb) in Hs. lia. }
  apply at_spec; [auto with hm|]. rewrite Hperm.
  apply at_spec; [auto with hm|done].
Qed.

(** ** [operator[]] and the constructor from two vectors *)

Lemma alter_middle {A} (f : A → A) (l : list A) (i : nat) x :
  l !! i = Some x → alter f i l = take i l ++ f x :: drop (S i) l.
Proof.
  revert i. induction l as [|y l IH]; intros [|i] Hi; simplify_eq/=; [done|].
  f_equal. by apply IH.
Qed.

Lemma store_entries m k (i : nat) v :
  layout m →
  find_key (bucket m (hashy m k)) k = Some i →
  ∃ L1 L2 v0, entries m = L1 ++ (k, v0) :: L2 ∧
              entries (store m (hashy m k, i) v) = L1 ++ (k, v) :: L2 ∧
              ∀ p, p ∈ bucket (store m (hashy m k, i) v) (hashy m k) →
                   hashy m p.1 = hashy m k.
Proof.
  intros Hl Hi. apply find_key_Some in Hi as (v0 & Hi & _).
  pose proof (bucket_hashy m k Hl) as Hb.
  unfold entries, store; simpl.
  destruct (mjoin_insert (_buckets m) (Z.to_nat (hashy m k))
              (bucket m (hashy m k))
              (alter (λ p, (p.1, v)) i (bucket m (hashy m k))) Hb)
    as (l1 & l2 & -> & ->).
  rewrite (alter_middle _ _ i (k, v0)) by done. simpl.
  exists (l1 ++ take i (bucket m (hashy m k))),
         (drop (S i) (bucket m (hashy m k)) ++ l2), v0.
  split; [|split].
  - rewrite <- (take_drop_middle _ i (k, v0) Hi) at 1.
    by rewrite <- !(assoc_L (++)).
  - by rewrite <- !(assoc_L (++)).
  - intros p. unfold bucket at 1; simpl.
    rewrite list_lookup_insert_eq by (by eapply lookup_lt_Some). simpl.
    pose proof (hashy_range m k (lay_capacity m Hl)) as Hr.
    intros [Hp|[->|Hp]%elem_of_cons]%elem_of_app; [|done|].
    + rewrite <- (Z2Nat.id (hashy m k)) by lia.
      eapply (lay_placed m Hl); [done|]. by eapply subseteq_take.
    + rewrite <- (Z2Nat.id (hashy m k)) by lia.
      eapply (lay_placed m Hl); [done|]. by eapply subseteq_drop.
Qed.

Lemma store_spec m k (i : nat) v :
  wf m →
  find_key (bucket m (hashy m k)) k = Some i →
  wf (store m (hashy m k, i) v) ∧
  _size (store m (hashy m k, i) v) = _size m ∧
  ∀ k', at_ (store m (hashy m k, i) v) k' =
          if decide (k' = k) then Some v else at_ m k'.
Proof.
  intros Hwf Hi. pose proof (wf_layout m Hwf) as Hl.
  destruct (store_entries m k i v Hl Hi) as (L1 & L2 & v0 & Hent & Hent' & Hpl).
  pose proof (hashy_range m k (lay_capacity m Hl)) as Hr.
  assert (layout (store m (hashy m k, i) v)) as Hl'.
  { unfold store; simpl.
    eapply layout_replace; [done|by apply bucket_hashy| |].
    - intros p Hp. rewrite Z2Nat.id by lia. apply Hpl.
      unfold bucket, store; simpl.
      rewrite list_lookup_insert_eq; [done|].
      eapply lookup_lt_Some. by apply bucket_hashy.
    - change (NoDup (entries (store m (hashy m k, i) v)).*1).
      rewrite Hent', fmap_app; simpl.
      pose proof (lay_unique m Hl) as Hnd.
      by rewrite Hent, fmap_app in Hnd. }
  split; [split; [done|..]|split; [done|]].
  - simpl. rewrite (wf_size m Hwf), Hent', Hent, !length_app. simpl. done.
  - apply Hwf.
  - intros k'. destruct (decide (k' = k)) as [->|Hne].
    + apply at_spec; [done|]. rewrite Hent'.
      apply elem_of_app. right. left.
    + apply at_elem_of; [done..|]. intros v'.
      rewrite Hent, Hent', !elem_of_app, !elem_of_cons.
      split; (intros [?|[[=]|?]]; [by left|done|by right; right]).
Qed.

Lemma subscript_store n a m k v :
  wf m →
  ∃ m1 (i : nat),
    subscript (S (S n)) a m k = Some (m1, (hashy m1 k, i)) ∧
    wf (store m1 (hashy m1 k, i) v) ∧
    ∀ k', at_ (store m1 (hashy m1 k, i) v) k' =
            if decide (k' = k) then Some v else at_ m k'.
Proof.
  intros Hwf. unfold subscript.
  assert (∃ m1, (if containsKey m k then Some m
                 else snd <$> insert (S (S n)) m k a) = Some m1 ∧
                wf m1 ∧ containsKey m1 k = true ∧
                ∀ k', k' ≠ k → at_ m1 k' = at_ m k') as (m1 & -> & Hwf1 & Hc1 & Hat1).
  { destruct (containsKey m k) eqn:Hc; [by exists m|].
    destruct (insert_spec n m k a Hwf) as (r & m1 & Hins & _).
    pose proof (insert_at _ _ _ _ _ _ Hwf Hins) as (Hwf1 & _ & _ & Hat).
    exists m1. rewrite Hins. split; [done|]. split; [done|]. split.
    - apply containsKey_at; [auto with hm|].
      rewrite Hat, decide_True, Hc by done. done.
    - intros k' Hne. by rewrite Hat, decide_False. }
  simpl. unfold containsKey, bucketIndex in Hc1.
  destruct (find_key (bucket m1 (hashy m1 k)) k) as [i|] eqn:Ei; [|done].
  simpl. exists m1, i. split; [done|].
  destruct (store_spec m1 k i v Hwf1 Ei) as (Hwf' & _ & Hat').
  split; [done|]. intros k'. rewrite Hat'.
  destruct (decide (k' = k)); [done|by apply Hat1].
Qed.

Lemma HashMap_of_loop_spec n a (keys : list K) (values : list V) m :
  wf m → length keys = length values →
  ∃ m', HashMap_of_loop (S (S n)) a m keys values = Some m' ∧ wf m' ∧
        ∀ k, at_ m' k =
               match last_written (zip keys values) k with
               | Some v => Some v
               | None => at_ m k
               end.
Proof.
  revert values m. induction keys as [|key keys IH];
    intros [|value values] m Hwf Hlen; simplify_eq/=.
  { by exists m. }
  destruct (subscript_store n a m key value Hwf) as (m1 & i & Hsub & Hwf1 & Hat1).
  destruct (IH values _ Hwf1 Hlen) as (m' & Hloop & Hwf' & Hat').
  exists m'. rewrite Hsub; simpl. split; [done|]. split; [done|].
  intros k. rewrite Hat', Hat1. unfold last_written.
  rewrite filter_cons; simpl.
  destruct (decide (key = k)) as [->|Hne].
  - rewrite last_cons, decide_True by done.
    by destruct (last (filter _ _)).
  - rewrite decide_False by done. done.
Qed.

(** ** [clear] and [operator=] *)

Lemma clear_bucket m (i : Z) : bucket (clear m) i = [].
Proof.
  unfold bucket, clear; simpl. rewrite list_lookup_fmap.
  by destruct (_buckets m !! Z.to_nat i).
Qed.

Lemma clear_spec m :
  _size (clear m) = _size m ∧ _capacity (clear m) = _capacity m ∧
  ∀ k, containsKey (clear m) k = false.
Proof.
  do 2 (split; [done|]). intros k.
  unfold containsKey, bucketIndex. by rewrite clear_bucket.
Qed.

(** X16: [operator=], which starts from [_size = 0], makes from a table
    that satisfies the class invariant a table with the size, the capacity
    and the bindings of its argument, equal to it under [operator==]. *)
Lemma assign_spec n m :
  wf m →
  ∃ m', assign (S n) m = Some m' ∧ wf m' ∧
        _size m' = _size m ∧ _capacity m' = _capacity m ∧
        (∀ k, at_ m' k = at_ m k) ∧ equal m m' = Some true.
Proof.
  intros Hwf. unfold assign. rewrite items_spec by eauto with hm. simpl.
  pose proof (lay_capacity m (wf_layout m Hwf)) as Hcap.
  assert (@fresh K V (_capacity m) =
            {| _buckets := replicate (Z.to_nat (_capacity m)) [];
               _size := 0; _capacity := _capacity m |}) as <-
    by (unfold fresh, clear; simpl; by rewrite fmap_replicate).
  destruct (reinsert_spec n (entries m) (@fresh K V (_capacity m)))
    as (m' & Hre & Hwf' & Hc & Hent).
  - by apply wf_fresh.
  - apply Hwf.
  - intros k _. rewrite entries_fresh. apply not_elem_of_nil.
  - simpl. rewrite <- (wf_size m Hwf). pose proof (wf_load m Hwf). lia.
  - rewrite entries_fresh in Hent. simpl in Hent.
    assert (∀ k, at_ m' k = at_ m k) as Hat.
    { intros k. apply at_elem_of; [auto with hm..|]. intros v. by rewrite Hent. }
    assert (_size m' = _size m) as Hs
      by (by rewrite (wf_size m' Hwf'), (wf_size m Hwf), Hent).
    exists m'. do 5 (split; [done|]).
    destruct (equal_spec m m' Hwf Hwf') as ([] & Heq & Hiff); [done|].
    destruct Hiff as [_ Hiff]. rewrite Heq. f_equal. apply Hiff.
    split; [done|]. intros k v. by rewrite Hat.
Qed.

(** The loop of the copy constructor, which starts from empty buckets and an
    inflated [_size]: either no [insert] resizes, and [_size] grows by the
    number of pairs, or one does, and the capacity doubles. *)
Lemma copy_loop n (ps : list (K * V)) m :
  layout m →
  NoDup ps.*1 →
  (∀ k, k ∈ ps.*1 → k ∉ (entries m).*1) →
  4 * Z.of_nat (length (entries m) + length ps) ≤ 3 * _capacity m →
  ∃ m', reinsert (insert (S (S n))) ps m = Some m' ∧
        ((_capacity m' = _capacity m ∧
          _size m' = _size m + Z.of_nat (length ps)) ∨
         _capacity m' = _capacity m * 2).
Proof.
  revert m. induction ps as [|[k v] ps IH]; intros m Hl Hnd Hfresh Hroom.
  { exists m. split; [done|]. left. simpl. lia. }
  simpl in Hnd. apply NoDup_cons in Hnd as [Hk Hnd].
  pose proof (lay_capacity m Hl) as Hcap.
  assert (containsKey m k = false) as Hc.
  { apply containsKey_false; [done|]. apply Hfresh; simpl. left. }
  pose proof (pushed_layout m k v Hl Hc) as Hl1.
  pose proof (pushed_entries m k v Hl) as Hent1.
  assert (∀ k', k' ∈ ps.*1 → k' ∉ (entries (pushed m k v)).*1) as Hfresh1.
  { intros k' Hk'. rewrite Hent1, fmap_app, not_elem_of_app; simpl. split.
    - apply Hfresh; simpl. by right.
    - rewrite list_elem_of_singleton. by intros ->. }
  assert (length (entries (pushed m k v)) = S (length (entries m))) as Hlen1
    by (rewrite Hent1, length_app; simpl; lia).
  cbn [reinsert fst snd]. rewrite insert_unfold, Hc.
  destruct (Qlt_b _ _) eqn:E.
  - destruct (resize_spec n UP (pushed m k v) (_capacity m * 2))
      as (m1 & Hre & Hwf1 & Hc1 & Hent); [done|done|lia| |].
    { rewrite Hlen1. simpl in Hroom. lia. }
    rewrite Hre. simpl.
    destruct (reinsert_spec (S n) ps m1) as (m' & Hre' & _ & Hc' & _);
      [done|done| | |].
    + intros k' Hk'. rewrite Hent. by apply Hfresh1.
    + rewrite (wf_size m1 Hwf1), Hent, Hlen1, Hc1. simpl in Hroom. lia.
    + exists m'. split; [done|]. right. by rewrite Hc', Hc1.
  - simpl.
    destruct (IH (pushed m k v)) as (m' & Hre & Hcase); [done|done|done| |].
    { rewrite Hlen1. simpl in *. lia. }
    exists m'. split; [done|]. simpl in Hcase. simpl length.
    destruct Hcase as [[? ?]|?]; [left; lia|by right].
Qed.

(** X17: the copy constructor, which starts from [_size = other._size]: the
    copy of a table that satisfies the class invariant has twice its size,
    or twice its capacity; with at least one pair, it differs from the
    original in size or in capacity. *)
Lemma copy_inflates n m :
  wf m →
  ∃ c, HashMap_copy (S (S n)) m = Some c ∧
       ((_capacity c = _capacity m ∧ _size c = _size m * 2) ∨
        _capacity c = _capacity m * 2) ∧
       (entries m ≠ [] → _size c ≠ _size m ∨ _capacity c ≠ _capacity m).
Proof.
  intros Hwf. unfold HashMap_copy. rewrite items_spec by eauto with hm. simpl.
  pose proof (lay_capacity m (wf_layout m Hwf)) as Hcap.
  pose proof (wf_load m Hwf) as Hload. pose proof (wf_size m Hwf) as Hsize.
  set (this := {| _buckets := replicate (Z.to_nat (_capacity m)) [];
                  _size := _size m; _capacity := _capacity m |}).
  assert (entries this = []) as Hent by apply mjoin_replicate_nil.
  destruct (copy_loop n (entries m) this) as (c & Hre & Hcase).
  - split; simpl; rewrite ?Hent; try done.
    + by rewrite length_replicate.
    + intros i b p [-> _]%lookup_replicate. by intros ?%elem_of_nil.
    + apply NoDup_nil_2.
  - apply Hwf.
  - intros k _. rewrite Hent. apply not_elem_of_nil.
  - rewrite Hent. simpl. lia.
  - exists c. split; [done|]. simpl in Hcase. split.
    + destruct Hcase as [[? ?]|?]; [left; lia|by right].
    + intros Hne.
      assert (0 < length (entries m))%nat
        by (destruct (entries m); [done|simpl; lia]).
      destruct Hcase as [[? ?]|?]; [left|right]; lia.
Qed.

Lemma pushed_bucket m key value :
  layout m →
  bucket (pushed m key value) (hashy m key) =
    bucket m (hashy m key) ++ [(key, value)].
Proof.
  intros Hl. unfold bucket at 1, pushed; simpl.
  rewrite list_lookup_insert_eq; [done|].
  eapply lookup_lt_Some. by apply bucket_hashy.
Qed.

(** ** The counters *)

Lemma exec_counters n m o r m' :
  wf m → exec (S (S n)) m o = Some (r, m') →
  (_size m', _capacity m') =
    if r then
      match o with
      | Insert _ _ => insert_counters (_size m, _capacity m)
      | Erase _ => erase_counters (_size m, _capacity m)
      end
    else (_size m, _capacity m).
Proof.
  intros Hwf Hex. destruct o as [key value|key]; simpl in Hex.
  - pose proof (insert_at _ _ _ _ _ _ Hwf Hex) as (_ & -> & Hsz & _).
    destruct (insert_spec n m key value Hwf) as (r0 & m0 & Hins & _ & Hcase).
    rewrite Hex in Hins. injection Hins as _ <-.
    destruct (containsKey m key); simpl.
    + by destruct Hcase as [_ ->].
    + destruct Hcase as (_ & _ & ->). by rewrite Hsz.
  - pose proof (erase_at _ _ _ _ _ Hwf Hex) as (_ & -> & Hsz & _).
    destruct (erase_spec (S n) m key Hwf) as (r0 & m0 & Her & _ & Hcase).
    rewrite Hex in Her. injection Her as _ <-.
    destruct (containsKey m key); simpl.
    + destruct Hcase as (_ & _ & ->). by rewrite Hsz.
    + by destruct Hcase as [_ ->].
Qed.

(** No [int] overflows in a run of fewer than [2 ^ 28] calls: [_size]
    is at most the number of calls and [_capacity] at most
    [max 16 (4 * _size)]. *)
Lemma capacity_bound n (os : list (op K V)) m :
  wf m → _capacity m ≤ 16 `max` (4 * _size m) →
  ∃ rs m', run (S (S n)) m os = Some (rs, m') ∧ wf m' ∧
           _capacity m' ≤ 16 `max` (4 * _size m') ∧
           _size m' ≤ _size m + Z.of_nat (length os).
Proof.
  revert m. induction os as [|o os IH]; intros m Hwf Hb.
  { exists [], m. simpl. repeat split; try done; try apply Hwf. lia. }
  destruct (exec_spec n m o Hwf) as (r & m1 & Hex & Hwf1).
  pose proof (exec_counters _ _ _ _ _ Hwf Hex) as Hsc.
  pose proof (wf_size m1 Hwf1) as Hs1.
  pose proof (wf_size m Hwf) as Hs.
  pose proof (lay_capacity m (wf_layout m Hwf)) as Hc.
  assert (_capacity m1 ≤ 16 `max` (4 * _size m1) ∧ _size m1 ≤ _size m + 1)
    as [Hb1 Hs1'].
  { destruct r; [destruct o|]; unfold insert_counters, erase_counters in Hsc;
      simpl in Hsc; injection Hsc as Hsz Hcp; rewrite Hsz, Hcp.
    - destruct (Z.ltb_spec (3 * _capacity m) (4 * (_size m + 1))); lia.
    - assert (_capacity m `quot` 2 = _capacity m `div` 2) as ->
        by (apply Z.quot_div_nonneg; lia).
      pose proof (Z.div_mod (_capacity m) 2).
      pose proof (Z.mod_pos_bound (_capacity m) 2).
      destruct (Z.ltb_spec (4 * (_size m - 1)) (_capacity m)); lia.
    - lia. }
  destruct (IH m1 Hwf1 Hb1) as (rs & m' & Hrun & Hwf' & Hb' & Hs').
  exists (r :: rs), m'. rewrite run_cons, Hex; simpl. rewrite Hrun; simpl.
  repeat split; try done; try apply Hwf'. simpl length. lia.
Qed.

Lemma run_wf n (os : list (op K V)) rs m :
  run (S (S n)) HashMap_default os = Some (rs, m) → wf m.
Proof.
  intros Hrun.
  destruct (run_keeps n os HashMap_default wf_default) as (rs' & m' & Hrun' & ? & _).
  by simplify_eq.
Qed.

Lemma run_pow2 n (os : list (op K V)) m (e : nat) :
  wf m → _capacity m = 2 ^ Z.of_nat e →
  ∃ rs m', run (S (S n)) m os = Some (rs, m') ∧ wf m' ∧
           ∃ e' : nat, _capacity m' = 2 ^ Z.of_nat e'.
Proof.
  revert m e. induction os as [|o os IH]; intros m e Hwf He.
  { exists [], m. eauto. }
  destruct (exec_spec n m o Hwf) as (r & m1 & Hex & Hwf1).
  assert (∃ e1 : nat, _capacity m1 = 2 ^ Z.of_nat e1) as [e1 He1].
  { destruct (exec_capacity _ _ _ _ _ Hwf Hex) as [Hc|[Hc|[Hc _]]]; rewrite Hc.
    - eauto.
    - exists (S e). rewrite He, Nat2Z.inj_succ, Z.pow_succ_r by lia. lia.
    - apply (pow2_half _ e He). rewrite <- Hc. eauto with hm. }
  destruct (IH m1 e1 Hwf1 He1) as (rs & m' & Hrun & Hwf' & He').
  exists (r :: rs), m'. rewrite run_cons, Hex; simpl. rewrite Hrun; simpl. eauto.
Qed.

Lemma last_written_is_Some (keys : list K) (values : list V) k :
  length keys = length values →
  is_Some (last_written (zip keys values) k) ↔ k ∈ keys.
Proof.
  intros Hlen. unfold last_written.
  rewrite fmap_is_Some, <- not_eq_None_Some, last_None.
  rewrite <- (fst_zip keys values) at 2 by lia.
  rewrite list_elem_of_fmap. split.
  - intros Hne. destruct (filter _ _) as [|p l] eqn:E; [done|].
    assert (p ∈ filter (λ p, p.1 = k) (zip keys values)) as Hp
      by (rewrite E; left).
    apply list_elem_of_filter in Hp as [<- Hp]. eauto.
  - intros (p & -> & Hp) Hnil.
    assert (p ∈ filter (λ q, q.1 = p.1) (zip keys values)) as Hin
      by (by apply list_elem_of_filter).
    rewrite Hnil in Hin. by apply elem_of_nil in Hin.
Qed.

Lemma size_distinct_keys m (keys : list K) :
  wf m → (∀ k, containsKey m k = true ↔ k ∈ keys) →
  _size m = Z.of_nat (length (remove_dups keys)).
Proof.
  intros Hwf Hkeys. rewrite (wf_size m Hwf). f_equal.
  rewrite <- (length_fmap fst (entries m)). apply Permutation_length.
  apply NoDup_Permutation; [apply Hwf|apply NoDup_remove_dups|].
  intros k. rewrite elem_of_remove_dups, <- Hkeys.
  symmetry. apply containsKey_spec. auto with hm.
Qed.

End HashMap_facts.

(** * The specification's claims *)

Section HashMap_claims.
Context {K V : Type} `{EqDecision K, Hash K, EqDecision V}.
Implicit Types (m : HashMap K V) (k key : K) (v : V).

#[local] Hint Resolve wf_layout lay_capacity lay_buckets lay_unique : hm.

(** C3, as amended: with the default constructor at its start, every
    sequence of [insert] and [erase] calls returns and leaves a capacity
    that is a power of two (at least 1: there is no floor at 16).  From
    any table of capacity 32 holding 13 keys, erasing 11 of them leaves
    capacity 8, with the 2 other keys. *)
Theorem capacity_power_of_two (n : nat) :
  (∀ os : list (op K V),
     ∃ rs m, run (S (S n)) HashMap_default os = Some (rs, m) ∧
             1 ≤ capacity m ∧ ∃ e : nat, capacity m = 2 ^ Z.of_nat e) ∧
  (∀ m (ks : list K),
     wf m → size m = 13 → capacity m = 32 →
     NoDup ks → length ks = 11%nat →
     (∀ k, k ∈ ks → containsKey m k = true) →
     ∃ rs m', run (S (S n)) m (Erase <$> ks) = Some (rs, m') ∧
              capacity m' = 8 ∧ size m' = 2 ∧
              ∀ k, containsKey m' k = true ↔ containsKey m k = true ∧ k ∉ ks).
Proof.
  split.
  - intros os.
    destruct (run_pow2 n os HashMap_default 4 wf_default eq_refl)
      as (rs & m & Hrun & Hwf & He).
    exists rs, m. split; [done|]. split; [|done].
    pose proof (lay_capacity m (wf_layout m Hwf)). unfold capacity. lia.
  - intros m ks Hwf Hs Hc Hnd Hlen Hin. unfold size, capacity in *.
    destruct (run_erases n ks m Hwf Hnd Hin) as (m' & Hrun & Hwf' & Hsc & Hat).
    exists (replicate (length ks) true), m'. split; [done|].
    rewrite Hs, Hc in Hsc.
    do 11 (destruct ks as [|? ks]; [done|]). destruct ks; [|done].
    vm_compute in Hsc. injection Hsc as Hs' Hc'. do 2 (split; [done|]).
    intros x. rewrite !containsKey_at, Hat by auto with hm.
    destruct (decide (x ∈ _)) as [Hk|Hk].
    + split; [by intros [? [=]]|by intros [_ []]].
    + split; [done|by intros [? _]].
Qed.

(** C4, as amended: a call of [insert] or [erase] returns and leaves a load
    factor of at most 0.75, and of at least 0.25 unless the capacity is at
    most 16 (it may then be 16, 8, 4, 2 or 1: there is no floor).  This holds
    for a call on a table that satisfies the class invariant and has itself
    a load factor of at least 0.25 or a capacity of at most 16, so for a
    call after any sequence of [insert] and [erase] calls on a
    default-constructed table. *)
Theorem load_factor_after_call (n : nat) :
  (∀ m (o : op K V),
     wf m →
     (DEF_LOW_BOUND <= getLoadFactor m)%Q ∨ capacity m ≤ 16 →
     ∃ r m', exec (S (S n)) m o = Some (r, m') ∧
       (getLoadFactor m' <= DEF_HIGH_BOUND)%Q ∧
       ((DEF_LOW_BOUND <= getLoadFactor m')%Q ∨ capacity m' ≤ 16)) ∧
  (∀ (os : list (op K V)) (o : op K V),
     ∃ rs m r m',
       run (S (S n)) HashMap_default os = Some (rs, m) ∧
       exec (S (S n)) m o = Some (r, m') ∧
       (getLoadFactor m' <= DEF_HIGH_BOUND)%Q ∧
       ((DEF_LOW_BOUND <= getLoadFactor m')%Q ∨ capacity m' ≤ 16)).
Proof.
  assert (∀ m (o : op K V),
     wf m → _capacity m ≤ 16 `max` (4 * _size m) →
     ∃ r m', exec (S (S n)) m o = Some (r, m') ∧
       (getLoadFactor m' <= DEF_HIGH_BOUND)%Q ∧
       ((DEF_LOW_BOUND <= getLoadFactor m')%Q ∨ capacity m' ≤ 16)) as Hstep.
  { intros m o Hwf Hb.
    destruct (capacity_bound n [o] m Hwf Hb) as (rs & m' & Hrun & Hwf' & Hb' & _).
    rewrite run_cons in Hrun.
    destruct (exec (S (S n)) m o) as [[r m1]|] eqn:Hex; [|done].
    simpl in Hrun. injection Hrun as _ ->. exists r, m'. split; [done|].
    pose proof (lay_capacity m' (wf_layout m' Hwf')) as Hc'.
    split; [apply load_le_high; [done|apply Hwf']|].
    rewrite load_ge_low by done. unfold capacity. lia. }
  split.
  - intros m o Hwf Hlow. apply Hstep; [done|].
    rewrite load_ge_low in Hlow by eauto with hm. unfold capacity in Hlow. lia.
  - intros os o.
    destruct (capacity_bound n os HashMap_default wf_default)
      as (rs & m & Hrun & Hwf & Hb & _); [done|].
    destruct (Hstep m o Hwf Hb) as (r & m' & Hex & Hbounds).
    by exists rs, m, r, m'.
Qed.

(** C5: [insert] of a key that is present returns [false] and leaves the
    table as it is; after [insert(k, v1); insert(k, v2)] on a table without
    [k], [at(k)] is [v1]. *)
Theorem insert_no_overwrite (n : nat) m k v1 v2 :
  (containsKey m k = true → insert (S n) m k v2 = Some (false, m)) ∧
  (wf m → containsKey m k = false →
   ∃ m1, insert (S (S n)) m k v1 = Some (true, m1) ∧
         insert (S (S n)) m1 k v2 = Some (false, m1) ∧
         at_ m1 k = Some v1).
Proof.
  split.
  - intros Hk. by rewrite insert_unfold, Hk.
  - intros Hwf Hk.
    destruct (insert_spec n m k v1 Hwf) as (r & m1 & Hins & Hwf1 & _).
    pose proof (insert_at _ _ _ _ _ _ Hwf Hins) as (_ & -> & _ & Hat).
    rewrite Hk in Hat, Hins. simpl in Hins. exists m1. split; [done|].
    specialize (Hat k). rewrite decide_True in Hat by done.
    split; [|done]. rewrite insert_unfold.
    by rewrite (proj2 (containsKey_at m1 k (wf_layout m1 Hwf1))).
Qed.

(** C6: the constructor from two vectors throws when their lengths
    differ; otherwise it returns a table where every key is bound to the
    value of its last occurrence, with one pair per distinct key.  From
    keys [a, b, a] and values [1, 2, 3] the table has size 2, [at(a) = 3]
    and [at(b) = 2]. *)
Theorem HashMap_of_spec (n : nat) (a : V) (keys : list K) (values : list V) :
  (length keys ≠ length values → HashMap_of n a keys values = Some Throws) ∧
  (length keys = length values →
   ∃ m, HashMap_of (S (S n)) a keys values = Some (Returns m) ∧ wf m ∧
        (∀ k, at_ m k = last_written (zip keys values) k) ∧
        size m = Z.of_nat (length (remove_dups keys))) ∧
  (∀ ka kb v1 v2 v3,
     ka ≠ kb →
     ∃ m, HashMap_of (S (S n)) a [ka; kb; ka] [v1; v2; v3] = Some (Returns m) ∧
          size m = 2 ∧ at_ m ka = Some v3 ∧ at_ m kb = Some v2).
Proof.
  assert (∀ (ks : list K) (vs : list V), length ks = length vs →
    ∃ m, HashMap_of (S (S n)) a ks vs = Some (Returns m) ∧ wf m ∧
         (∀ k, at_ m k = last_written (zip ks vs) k) ∧
         size m = Z.of_nat (length (remove_dups ks))) as Hgen.
  { intros ks vs Hlen. unfold HashMap_of. rewrite decide_False by (by intros []).
    destruct (HashMap_of_loop_spec n a ks vs HashMap_default wf_default Hlen)
      as (m & -> & Hwf & Hat).
    assert (∀ k, at_ m k = last_written (zip ks vs) k) as Hat'.
    { intros k. rewrite Hat. destruct (last_written _ _); [done|].
      apply at_default. }
    exists m. simpl. do 3 (split; [done|]).
    apply size_distinct_keys; [done|]. intros k.
    rewrite containsKey_at, Hat' by auto with hm.
    by apply last_written_is_Some. }
  split; [|split].
  - intros Hne. unfold HashMap_of. by rewrite decide_True.
  - apply Hgen.
  - intros ka kb v1 v2 v3 Hne.
    destruct (Hgen [ka; kb; ka] [v1; v2; v3] eq_refl) as (m & -> & _ & Hat & Hs).
    exists m. split; [done|]. rewrite Hs, !Hat. unfold last_written.
    split; [|split].
    + simpl.
      destruct (decide_rel elem_of ka [kb; ka]) as [_|Hn];
        [|by destruct Hn; right; left].
      destruct (decide_rel elem_of kb [ka]) as [Hi|_]; [|done].
      by apply list_elem_of_singleton in Hi.
    + simpl. rewrite !filter_cons, filter_nil; simpl.
      repeat case_decide; by simplify_eq/=.
    + simpl. rewrite !filter_cons, filter_nil; simpl.
      repeat case_decide; by simplify_eq/=.
Qed.

(** C7: with the default constructor at its start, every sequence of
    [insert] and [erase] calls returns, whatever resizes it goes through;
    afterwards every key of an [insert] that returned [true], with no later
    [erase] of that key, is contained, and [at] returns the value it was
    inserted with. *)
Theorem inserted_keys_retrievable (n : nat) (os : list (op K V)) :
  ∃ rs m, run (S (S n)) HashMap_default os = Some (rs, m) ∧
    length rs = length os ∧
    ∀ (i : nat) k v,
      os !! i = Some (Insert k v) → rs !! i = Some true →
      Erase k ∉ drop (S i) os →
      containsKey m k = true ∧ at_ m k = Some v.
Proof.
  destruct (run_keeps n os HashMap_default wf_default)
    as (rs & m & Hrun & Hwf & Hlen & _ & Hnew).
  exists rs, m. do 2 (split; [done|]). intros i k v Hi Hr Hno.
  pose proof (Hnew i k v Hi Hr Hno) as Hat. split; [|done].
  apply containsKey_at; [auto with hm|]. by rewrite Hat.
Qed.

(** On a table that satisfies the class invariant, the loop from
    [begin()] to [end()] stops within [size()] turns; it visits the stored
    pairs bucket by bucket and, within a bucket, in the order they have in
    it (the order in which [insert] appended them); these are [size()]
    pairs with distinct keys, the keys for which [containsKey] is true.  On
    a table with no pair [begin()] is [end()]. *)
Theorem traversal_complete (n : nat) m :
  wf m → (Z.to_nat (size m) ≤ n)%nat →
  traverse n m (begin m) = Some (mjoin (_buckets m)) ∧
  Z.of_nat (length (mjoin (_buckets m))) = size m ∧
  NoDup (mjoin (_buckets m)).*1 ∧
  (∀ k, k ∈ (mjoin (_buckets m)).*1 ↔ containsKey m k = true) ∧
  (size m = 0 → begin m = end_ m).
Proof.
  intros Hwf Hn. pose proof (wf_layout m Hwf) as Hl.
  pose proof (wf_size m Hwf) as Hs. unfold size in *. fold (entries m).
  split; [|split; [|split; [|split]]].
  - apply traverse_begin; [eauto with hm..|]. lia.
  - by rewrite Hs.
  - apply Hl.
  - intros k. symmetry. by apply containsKey_spec.
  - intros H0. apply begin_end_empty; [eauto with hm..|].
    apply length_zero_iff_nil. lia.
Qed.

(** On tables that satisfy the class invariant, [a == b] and [b == a]
    return the same answer, which is [true] exactly when the sizes are
    equal and every key bound in [a] is bound in [b] to the same value. *)
Theorem equal_symmetric (a b : HashMap K V) :
  wf a → wf b →
  ∃ r, equal a b = Some r ∧ equal b a = Some r ∧
       (r = true ↔
          size a = size b ∧ ∀ k v, at_ a k = Some v → at_ b k = Some v).
Proof.
  intros Ha Hb. unfold size.
  destruct (equal_spec a b Ha Hb) as (r & Hab & Hr).
  destruct (equal_spec b a Hb Ha) as (r' & Hba & Hr').
  assert (r = true ↔ r' = true) as Hrr.
  { rewrite Hr, Hr'. split.
    - intros [Hs Hsub]. split; [done|]. by apply bindings_sym.
    - intros [Hs Hsub]. split; [done|]. by apply bindings_sym. }
  exists r. split; [done|]. split.
  - rewrite Hba. f_equal.
    destruct r, r'; try done; [by apply Hrr|symmetry; by apply Hrr].
  - rewrite Hrr, Hr'. split; intros [Hs ?]; split; done.
Qed.

(** C10: [empty()] returns [true] exactly when [size()] is not 0: on a
    table that satisfies the class invariant, exactly when it holds a
    key. *)
Theorem empty_is_inverted m :
  (empty m = true ↔ size m ≠ 0) ∧
  (wf m → (empty m = true ↔ ∃ k, containsKey m k = true)).
Proof.
  assert (empty m = true ↔ size m ≠ 0) as He.
  { unfold empty, size. rewrite negb_true_iff. apply Z.eqb_neq. }
  split; [done|]. intros Hwf. rewrite He. unfold size.
  rewrite (wf_size m Hwf). split.
  - intros Hne. destruct (entries m) as [|[k v] l] eqn:E; [done|].
    exists k. apply containsKey_spec; [auto with hm|]. rewrite E. left.
  - intros [k Hk]. apply containsKey_spec in Hk; [|auto with hm].
    destruct (entries m); [by apply elem_of_nil in Hk|done].
Qed.

End HashMap_claims.

(** * The claims on tables of [int] *)

Section Int_examples.

Lemma wf_int_table os : wf (int_table os).
Proof.
  unfold int_table.
  destruct (run 2 HashMap_default os) as [[rs m]|] eqn:E; simpl.
  - by eapply run_wf.
  - apply wf_default.
Qed.

(** C1: after one [insert], [clear()] leaves [size()] at 1; the buckets
    are empty and the capacity is 16. *)
Theorem clear_keeps_size :
  size (clear (int_table [Insert 1 10])) = 1 ∧
  entries (clear (int_table [Insert 1 10])) = [] ∧
  containsKey (clear (int_table [Insert 1 10])) 1 = false ∧
  capacity (clear (int_table [Insert 1 10])) = 16.
Proof. vm_compute. done. Qed.

(** C2: the copy constructor makes, from a table with one pair, a table of
    size 2 that is not equal to it, and from a table with 8 pairs and
    capacity 16 a table with capacity 32; [operator=] makes one of size 1
    that is equal to it. *)
Theorem copy_doubles_size :
  (c ← HashMap_copy 2 (int_table [Insert 1 10]);
   e ← equal (int_table [Insert 1 10]) c;
   Some (size (int_table [Insert 1 10]), size c, capacity c, e))
    = Some (1, 2, 16, false) ∧
  (c ← HashMap_copy 2 (int_table (take 8 inserts13));
   Some (size (int_table (take 8 inserts13)),
         capacity (int_table (take 8 inserts13)), size c, capacity c))
    = Some (8, 16, 8, 32) ∧
  (c ← assign 2 (int_table [Insert 1 10]);
   e ← equal (int_table [Insert 1 10]) c;
   Some (size c, capacity c, e))
    = Some (1, 16, true).
Proof. vm_compute. done. Qed.

(** C3 fails as stated: after [insert(1, 10); erase(1)] the capacity is 8;
    and after 13 inserts (capacity 32) and 11 erases it is 8, not 16. *)
Lemma capacity_below_16 :
  ¬ (∀ (os : list (op Z Z)) rs m,
       run 2 HashMap_default os = Some (rs, m) → 16 ≤ capacity m) ∧
  capacity (int_table inserts13) = 32 ∧
  capacity (int_table (inserts13 ++ erases11)) = 8.
Proof.
  split; [|by vm_compute].
  intros Hc.
  assert (run 2 HashMap_default [Insert 1 10; Erase 1]
          = Some ([true; true], int_table [Insert 1 10; Erase 1])) as E
    by (vm_compute; reflexivity).
  apply Hc in E. vm_compute in E. done.
Qed.

(** C4 fails as stated: after [insert(1, 10); erase(1)] the capacity is 8,
    and [insert(2, 20)] then leaves capacity 8 and load factor 1/8. *)
Lemma load_factor_below_low_bound :
  ¬ (∀ (os : list (op Z Z)) o rs m r m',
       run 2 HashMap_default os = Some (rs, m) →
       exec 2 m o = Some (r, m') →
       capacity m = DEF_CAPACITY ∨ capacity m' = DEF_CAPACITY ∨
       ((DEF_LOW_BOUND <= getLoadFactor m')%Q ∧
        (getLoadFactor m' <= DEF_HIGH_BOUND)%Q)).
Proof.
  intros Hc.
  assert (run 2 HashMap_default [Insert 1 10; Erase 1]
          = Some ([true; true], int_table [Insert 1 10; Erase 1])) as E
    by (vm_compute; reflexivity).
  assert (exec 2 (int_table [Insert 1 10; Erase 1]) (Insert 2 20)
          = Some (true, int_table [Insert 1 10; Erase 1; Insert 2 20])) as E'
    by (vm_compute; reflexivity).
  destruct (Hc _ _ _ _ _ _ E E') as [H16|[H16|[Hlow _]]].
  - by vm_compute in H16.
  - by vm_compute in H16.
  - vm_compute in Hlow. by destruct Hlow.
Qed.

(** The amended C3 at the table of 13 keys: erasing the keys [0 .. 10]
    leaves capacity 8. *)
Lemma capacity_power_of_two_witness :
  ∃ rs m', run 2 (int_table inserts13) (Erase <$> seqZ 0 11) = Some (rs, m') ∧
           capacity m' = 8 ∧ size m' = 2 ∧
           ∀ k, containsKey m' k = true ↔
                containsKey (int_table inserts13) k = true ∧ k ∉ seqZ 0 11.
Proof.
  apply (proj2 (capacity_power_of_two 0)).
  - apply wf_int_table.
  - vm_compute. reflexivity.
  - vm_compute. reflexivity.
  - compute_done.
  - vm_compute. reflexivity.
  - apply Forall_forall. compute_done.
Defined.

(** The amended C4 at the table of 13 keys and [erase(0)]. *)
Lemma load_factor_after_call_witness :
  ∃ r m', exec 2 (int_table inserts13) (Erase 0) = Some (r, m') ∧
    (getLoadFactor m' <= DEF_HIGH_BOUND)%Q ∧
    ((DEF_LOW_BOUND <= getLoadFactor m')%Q ∨ capacity m' ≤ 16).
Proof.
  apply (proj1 (load_factor_after_call 0)).
  - apply wf_int_table.
  - left. vm_compute. discriminate.
Defined.

(** C5 at a table that holds key 1: [insert(1, 30)] changes nothing, and
    key 17, of the same bucket, keeps its first value. *)
Lemma insert_no_overwrite_witness :
  insert 1 (int_table [Insert 1 10]) 1 30
    = Some (false, int_table [Insert 1 10]) ∧
  ∃ m1, insert 2 (int_table [Insert 1 10]) 17 20 = Some (true, m1) ∧
        insert 2 m1 17 30 = Some (false, m1) ∧
        at_ m1 17 = Some 20.
Proof.
  split.
  - apply (proj1 (insert_no_overwrite 0 (int_table [Insert 1 10]) 1 20 30)).
    vm_compute. reflexivity.
  - apply (proj2 (insert_no_overwrite 0 (int_table [Insert 1 10]) 17 20 30)).
    + apply wf_int_table.
    + vm_compute. reflexivity.
Defined.

(** C6 at keys [1, 2, 1]: with values [1, 2, 3] the table has two pairs,
    with two values the constructor throws. *)
Lemma HashMap_of_spec_witness :
  HashMap_of 2 0 [1; 2; 1] [1; 2] = Some Throws ∧
  (∃ m, HashMap_of 2 0 [1; 2; 1] [1; 2; 3] = Some (Returns m) ∧ wf m ∧
        (∀ k, at_ m k = last_written (zip [1; 2; 1] [1; 2; 3]) k) ∧
        size m = Z.of_nat (length (remove_dups [1; 2; 1]))) ∧
  (∃ m, HashMap_of 2 0 [1; 2; 1] [1; 2; 3] = Some (Returns m) ∧
        size m = 2 ∧ at_ m 1 = Some 3 ∧ at_ m 2 = Some 2).
Proof.
  split; [|split].
  - apply (proj1 (HashMap_of_spec 2 0 [1; 2; 1] [1; 2])). simpl. lia.
  - apply (proj1 (proj2 (HashMap_of_spec 0 0 [1; 2; 1] [1; 2; 3]))).
    reflexivity.
  - apply (proj2 (proj2 (HashMap_of_spec 0 0 [1; 2; 1] [1; 2; 3]))). lia.
Defined.

(** C7 at a sequence with a rejected second [insert] of key 1 and an
    [erase] of another key. *)
Lemma inserted_keys_retrievable_witness :
  ∃ rs m,
    run 2 HashMap_default [Insert 1 10; Insert 1 20; Erase 2; Insert 17 5]
      = Some (rs, m) ∧
    containsKey m 1 = true ∧ at_ m 1 = Some 10.
Proof.
  destruct (inserted_keys_retrievable 0
              [Insert 1 10; Insert 1 20; Erase 2; Insert 17 5])
    as (rs & m & Hrun & _ & Hkeep).
  exists rs, m. split; [exact Hrun|].
  apply (Hkeep 0%nat 1 10).
  - reflexivity.
  - vm_compute in Hrun. injection Hrun as <- _. reflexivity.
  - compute_done.
Defined.

(** The traversal of a table with two pairs in bucket 1 and one in
    bucket 5. *)
Lemma traversal_complete_witness :
  traverse 3 (int_table [Insert 17 20; Insert 5 50; Insert 1 10])
    (begin (int_table [Insert 17 20; Insert 5 50; Insert 1 10]))
    = Some [(17, 20); (1, 10); (5, 50)].
Proof.
  apply (traversal_complete 3 (int_table [Insert 17 20; Insert 5 50; Insert 1 10])).
  - apply wf_int_table.
  - vm_compute. lia.
Defined.

(** Two tables with the same bindings, laid out differently. *)
Lemma equal_symmetric_witness :
  ∃ r, equal (int_table [Insert 1 10; Insert 17 20])
             (int_table [Insert 17 20; Insert 1 10]) = Some r ∧
       equal (int_table [Insert 17 20; Insert 1 10])
             (int_table [Insert 1 10; Insert 17 20]) = Some r ∧
       (r = true ↔
          size (int_table [Insert 1 10; Insert 17 20])
            = size (int_table [Insert 17 20; Insert 1 10]) ∧
          ∀ k v, at_ (int_table [Insert 1 10; Insert 17 20]) k = Some v →
                 at_ (int_table [Insert 17 20; Insert 1 10]) k = Some v).
Proof. apply equal_symmetric; apply wf_int_table. Defined.

(** C10 at a table with one pair: [empty()] is [true]. *)
Lemma empty_is_inverted_witness :
  empty (int_table [Insert 1 10]) = true ∧
  (empty (int_table [Insert 1 10]) = true ↔
     ∃ k, containsKey (int_table [Insert 1 10]) k = true).
Proof.
  split.
  - apply (proj1 (empty_is_inverted (int_table [Insert 1 10]))).
    vm_compute. discriminate.
  - apply (proj2 (empty_is_inverted (int_table [Insert 1 10]))).
    apply wf_int_table.
Defined.

(** Within a bucket the pairs are in the order in which [insert] appended
    them to the current bucket array: [resize] re-inserts bucket by bucket,
    so after a grow and a shrink key 1 comes before key 17, which the client
    inserted first. *)
Example rehash_order :
  (m ← snd <$> run 2 HashMap_default grow_then_shrink;
   l ← items m;
   Some (capacity m, l))
    = Some (16, [(1, 2); (17, 1); (8, 0); (9, 0); (10, 0); (11, 0); (12, 0)]).
Proof. vm_compute. done. Qed.

End Int_examples.

(** * Further properties of the class *)

Section HashMap_more.
Context {K V : Type} `{EqDecision K, Hash K, EqDecision V}.
Implicit Types (m : HashMap K V) (k key : K) (v : V).

#[local] Hint Resolve wf_layout lay_capacity lay_buckets lay_unique : hm.
#[local] Arguments insert : simpl never.

(** X1: [erase] on a table that satisfies the class invariant returns
    whether the key was there; afterwards the key is not contained, every
    other key keeps its binding, and [size()] is one less when the key was
    there; when it was not, the table is as before. *)
Theorem erase_effect (n : nat) m k :
  wf m →
  ∃ r m', erase (S n) m k = Some (r, m') ∧ wf m' ∧
    r = containsKey m k ∧
    containsKey m' k = false ∧
    (∀ k', k' ≠ k → at_ m' k' = at_ m k') ∧
    size m' = (if r then size m - 1 else size m) ∧
    (r = false → m' = m).
Proof.
  intros Hwf.
  destruct (erase_spec n m k Hwf) as (r & m' & Her & Hwf' & Hcase).
  pose proof (erase_at _ _ _ _ _ Hwf Her) as (_ & Hr & Hsz & Hat).
  exists r, m'. do 3 (split; [done|]). split; [|split; [|split]].
  - apply at_None; [auto with hm|]. by rewrite Hat, decide_True.
  - intros k' Hne. by rewrite Hat, decide_False.
  - unfold size. by rewrite Hsz, Hr.
  - intros ->. rewrite <- Hr in Hcase. by destruct Hcase.
Qed.

(** X2: on a table that satisfies the class invariant and does not hold
    [k], [insert(k, v)] followed by [erase(k)] both return [true] and leave
    a table with the bindings and the size of the first one, equal to it
    under [operator==]. *)
Theorem insert_erase_inverse (n : nat) m k v :
  wf m → containsKey m k = false →
  ∃ m1 m2, insert (S (S n)) m k v = Some (true, m1) ∧
           erase (S n) m1 k = Some (true, m2) ∧ wf m2 ∧
           (∀ k', at_ m2 k' = at_ m k') ∧
           size m2 = size m ∧
           equal m m2 = Some true.
Proof.
  intros Hwf Hk.
  destruct (insert_spec n m k v Hwf) as (r & m1 & Hins & Hwf1 & _).
  pose proof (insert_at _ _ _ _ _ _ Hwf Hins) as (_ & -> & Hsz1 & Hat1).
  rewrite Hk in Hins, Hsz1, Hat1. simpl in Hins.
  destruct (erase_spec n m1 k Hwf1) as (r & m2 & Her & Hwf2 & _).
  pose proof (erase_at _ _ _ _ _ Hwf1 Her) as (_ & -> & Hsz2 & Hat2).
  assert (containsKey m1 k = true) as Hk1.
  { apply containsKey_at; [auto with hm|]. by rewrite Hat1, decide_True. }
  rewrite Hk1 in Her, Hsz2.
  assert (∀ k', at_ m2 k' = at_ m k') as Hat.
  { intros k'. rewrite Hat2. destruct (decide (k' = k)) as [->|Hne].
    - symmetry. apply at_None; auto with hm.
    - by rewrite Hat1, decide_False. }
  exists m1, m2. do 4 (split; [done|]). unfold size.
  split; [lia|].
  destruct (equal_spec m m2 Hwf Hwf2) as ([] & Heq & Hiff); [done|].
  rewrite Heq. f_equal. apply Hiff. split; [lia|].
  intros k' v'. by rewrite Hat.
Qed.

(** X3: on every table, [at(k)] and [bucketSize(k)] throw exactly when
    [containsKey(k)] is false; the value [at] returns is stored with [k] in
    the bucket of [k]'s hash. *)
Theorem at_throws_iff_absent m k :
  (at_ m k = None ↔ containsKey m k = false) ∧
  (bucketSize m k = None ↔ containsKey m k = false) ∧
  (∀ v, at_ m k = Some v → (k, v) ∈ bucket m (hashy m k)).
Proof.
  unfold at_, bucketSize, containsKey, bucketIndex.
  destruct (find_key (bucket m (hashy m k)) k) as [j|] eqn:Ej; simpl.
  - rewrite Ej; simpl. apply find_key_Some in Ej as (v' & Hv & _).
    rewrite Hv; simpl. do 2 (split; [done|]).
    intros v [= <-]. by eapply list_elem_of_lookup_2.
  - done.
Qed.

(** X4: on every table, the const [operator[]] returns a reference exactly
    when the key is contained, and the value behind the reference is the
    one [at] returns. *)
Theorem subscript_const_spec m k :
  (subscript_const m k = None ↔ containsKey m k = false) ∧
  (∀ ref, subscript_const m k = Some ref →
          is_Some (at_ m k) ∧ fetch m ref = at_ m k).
Proof.
  unfold subscript_const, fetch, at_, containsKey, bucketIndex.
  destruct (find_key (bucket m (hashy m k)) k) as [j|] eqn:Ej; simpl.
  - rewrite Ej; simpl. split; [done|]. intros ref [= <-]; simpl.
    apply find_key_Some in Ej as (v' & Hv & _). rewrite Hv; simpl. eauto.
  - done.
Qed.

(** X5: on a table that satisfies the class invariant, [insert] of a new key
    doubles the capacity exactly when the new size is above 0.75 times the
    capacity, and [erase] of a contained key halves it exactly when the new
    size is below 0.25 times the capacity; a call that does not change the
    pairs does not change the capacity. *)
Theorem resize_thresholds (n : nat) m k v :
  wf m →
  (∃ r m', insert (S (S n)) m k v = Some (r, m') ∧
     capacity m' =
       if containsKey m k then capacity m
       else if 3 * capacity m <? 4 * (size m + 1)
            then capacity m * 2 else capacity m) ∧
  (∃ r m', erase (S n) m k = Some (r, m') ∧
     capacity m' =
       if containsKey m k
       then (if 4 * (size m - 1) <? capacity m
             then capacity m `quot` 2 else capacity m)
       else capacity m).
Proof.
  intros Hwf. unfold capacity, size. split.
  - destruct (insert_spec n m k v Hwf) as (r & m' & Hins & _ & Hcase).
    exists r, m'. split; [done|].
    destruct (containsKey m k); [by destruct Hcase as [_ ->]|].
    by destruct Hcase as (_ & _ & ->).
  - destruct (erase_spec n m k Hwf) as (r & m' & Her & _ & Hcase).
    exists r, m'. split; [done|].
    destruct (containsKey m k); [|by destruct Hcase as [_ ->]].
    by destruct Hcase as (_ & _ & ->).
Qed.

(** X6: [resize], on a table with the pairs laid out by hash and whatever
    [_size] it has, when the new capacity is positive and 0.75 times it is at
    least the number of pairs: it returns a table of the new capacity that
    satisfies the class invariant, with the same bindings, and with [_size]
    the number of pairs. *)
Theorem resize_keeps_pairs (n : nat) (way : way_t) m :
  layout m →
  0 < match way with UP => _capacity m * 2 | DOWN => _capacity m `quot` 2 end →
  4 * Z.of_nat (length (entries m))
    ≤ 3 * match way with UP => _capacity m * 2 | DOWN => _capacity m `quot` 2 end →
  ∃ m', resize (S n) way m = Some m' ∧ wf m' ∧
        capacity m' =
          match way with UP => _capacity m * 2 | DOWN => _capacity m `quot` 2 end ∧
        size m' = Z.of_nat (length (entries m)) ∧
        ∀ k, at_ m' k = at_ m k.
Proof.
  intros Hl Hpos Hroom.
  destruct (resize_spec n way m _ Hl eq_refl Hpos Hroom)
    as (m' & Hre & Hwf' & Hc & Hent).
  exists m'. do 3 (split; [done|]). split.
  - unfold size. by rewrite (wf_size m' Hwf'), Hent.
  - intros k. apply at_elem_of; [auto with hm..|]. intros v. by rewrite Hent.
Qed.

(** ** The bucket of a key *)

Lemma hashy_mod m k (e : nat) :
  _capacity m = 2 ^ Z.of_nat e → hashy m k = hash k `mod` _capacity m.
Proof.
  intros He. unfold hashy. rewrite He.
  replace (2 ^ Z.of_nat e - 1) with (Z.ones (Z.of_nat e))
    by (rewrite Z.ones_equiv; lia).
  apply Z.land_ones. lia.
Qed.

(** X7: after any sequence of [insert] and [erase] calls on a
    default-constructed table, the mask of [hashy] computes the hash modulo
    the capacity, an index of the bucket array, and [bucketIndex] returns it
    for the keys that are contained and throws for the others. *)
Theorem bucket_index_is_mod (n : nat) (os : list (op K V)) :
  ∃ rs m, run (S (S n)) HashMap_default os = Some (rs, m) ∧
    ∀ k, 0 ≤ hashy m k < capacity m ∧
         hashy m k = hash k `mod` capacity m ∧
         bucketIndex m k =
           if containsKey m k then Some (hash k `mod` capacity m) else None.
Proof.
  destruct (run_pow2 n os HashMap_default 4 wf_default eq_refl)
    as (rs & m & Hrun & Hwf & e & He).
  exists rs, m. split; [done|]. intros k. unfold capacity.
  split; [apply hashy_range; eauto with hm|].
  rewrite <- (hashy_mod m k e He). split; [done|].
  unfold containsKey, bucketIndex.
  by destruct (find_key (bucket m (hashy m k)) k).
Qed.

Lemma filter_all {A} (P : A → Prop) `{∀ x, Decision (P x)} (l : list A) :
  (∀ x, x ∈ l → P x) → filter P l = l.
Proof.
  induction l as [|x l IH]; intros Hall; [done|].
  rewrite filter_cons_True by (apply Hall; left).
  f_equal. apply IH. intros y Hy. apply Hall. by right.
Qed.

Lemma filter_none {A} (P : A → Prop) `{∀ x, Decision (P x)} (l : list A) :
  (∀ x, x ∈ l → ¬ P x) → filter P l = [].
Proof.
  induction l as [|x l IH]; intros Hall; [done|].
  rewrite filter_cons_False by (apply Hall; left).
  apply IH. intros y Hy. apply Hall. by right.
Qed.

(** In an array of buckets where bucket [j] holds pairs of index [off + j],
    the pairs of index [i] are those of one bucket. *)
Lemma filter_placed (f : K * V → Z) (bs : list (bucket_t K V)) (off i : nat) :
  (∀ (j : nat) b p, bs !! j = Some b → p ∈ b → f p = Z.of_nat (off + j)) →
  filter (λ p, f p = Z.of_nat i) (mjoin bs) =
    if decide (off ≤ i)%nat then default [] (bs !! (i - off)%nat) else [].
Proof.
  revert off. induction bs as [|b bs IH]; intros off Hpl; simpl.
  { rewrite filter_nil. by destruct (decide _). }
  rewrite filter_app, (IH (S off)).
  2:{ intros j b' p Hj Hp. rewrite (Hpl (S j) b' p Hj Hp). lia. }
  assert (∀ p, p ∈ b → f p = Z.of_nat off) as Hb.
  { intros p Hp. rewrite (Hpl 0%nat b p eq_refl Hp). lia. }
  destruct (decide (i = off)) as [->|Hne].
  - rewrite filter_all by done.
    rewrite decide_False, decide_True by lia.
    rewrite Nat.sub_diag. simpl. by rewrite (right_id_L [] (++)).
  - rewrite filter_none by (intros p Hp; rewrite (Hb p Hp); lia). simpl.
    destruct (decide (S off ≤ i)%nat) as [Hle|Hgt].
    + rewrite decide_True by lia.
      replace (i - off)%nat with (S (i - S off)) by lia. done.
    + by rewrite decide_False by lia.
Qed.

Lemma filter_bucket m k :
  layout m →
  filter (λ p, hashy m p.1 = hashy m k) (entries m) = bucket m (hashy m k).
Proof.
  intros Hl. pose proof (hashy_range m k (lay_capacity m Hl)) as Hr.
  unfold entries.
  rewrite (list_filter_iff _
             (λ p, hashy m p.1 = Z.of_nat (Z.to_nat (hashy m k))))
    by (intros p; by rewrite Z2Nat.id by lia).
  rewrite (filter_placed (λ p, hashy m p.1) (_buckets m) 0 (Z.to_nat (hashy m k))).
  - by rewrite decide_True, Nat.sub_0_r by lia.
  - intros j b p Hj Hp. by apply (lay_placed m Hl j b p).
Qed.

(** X8: on a table that satisfies the class invariant, [bucketSize(k)] of a
    contained key is the number of stored keys with the bucket index of [k],
    at least 1 and at most [size()]. *)
Theorem bucketSize_counts m k :
  wf m →
  bucketSize m k =
    (if containsKey m k
     then Some (Z.of_nat
                  (length (filter (λ p, hashy m p.1 = hashy m k) (entries m))))
     else None) ∧
  (∀ s, bucketSize m k = Some s → 1 ≤ s ≤ size m).
Proof.
  intros Hwf. pose proof (wf_layout m Hwf) as Hl.
  rewrite filter_bucket by done.
  assert (bucketSize m k =
            if containsKey m k
            then Some (Z.of_nat (length (bucket m (hashy m k)))) else None) as Hbs.
  { unfold bucketSize, containsKey, bucketIndex.
    by destruct (find_key (bucket m (hashy m k)) k). }
  split; [done|]. intros s. rewrite Hbs.
  destruct (containsKey m k) eqn:Hk; [|done]. intros [= <-].
  unfold containsKey, bucketIndex in Hk.
  destruct (find_key (bucket m (hashy m k)) k) as [j|] eqn:Ej; [|done].
  apply find_key_Some in Ej as (v & Hv & _).
  apply lookup_lt_Some in Hv.
  assert (length (bucket m (hashy m k)) ≤ length (entries m))%nat.
  { rewrite <- (filter_bucket m k Hl). apply length_filter. }
  unfold size. rewrite (wf_size m Hwf). lia.
Qed.

(** X9: [first()] on a table with its buckets laid out: it is the capacity
    exactly when no pair is stored; otherwise it is the index of a non-empty
    bucket before which every bucket is empty. *)
Theorem first_spec m :
  layout m →
  0 ≤ first m ≤ capacity m ∧
  (first m = capacity m ↔ entries m = []) ∧
  (first m < capacity m →
   bucket m (first m) ≠ [] ∧ ∀ j, 0 ≤ j < first m → bucket m j = []).
Proof.
  intros Hl. pose proof (lay_capacity m Hl) as Hcap.
  pose proof (lay_buckets m Hl) as Hlen. unfold first, capacity.
  destruct (first_loop_spec m Hcap Hlen (Z.to_nat (_capacity m)) 0)
    as (f & Hf & Hle & Hne & Hj); [lia..|].
  change (Z.of_nat 0) with 0 in Hf. rewrite Hf.
  rewrite drop_0 in Hj. fold (entries m) in Hj.
  assert (mjoin (take f (_buckets m)) = []) as Htake.
  { apply (app_inv_tail (mjoin (drop f (_buckets m)))). simpl.
    by rewrite <- join_app, take_drop. }
  split; [lia|]. split; [split|].
  - intros Hfc. rewrite Hj, drop_ge by lia. done.
  - intros Hent. destruct (decide (Z.of_nat f = _capacity m)) as [|Hlt]; [done|].
    destruct Hne; [lia|].
    destruct (bucket m (Z.of_nat f)) as [|p b] eqn:Eb; [done|].
    assert (p ∈ entries m) as Hp
      by (apply (elem_of_bucket_entries m (Z.of_nat f)); rewrite Eb; left).
    rewrite Hent in Hp. by apply elem_of_nil in Hp.
  - intros Hlt. split; [by apply Hne|]. intros j Hjr.
    apply join_nil_1 in Htake. rewrite Forall_forall in Htake.
    apply Htake. apply elem_of_take. exists (Z.to_nat j). split; [|lia].
    apply bucket_in_range; [lia|done].
Qed.

(** ** [operator[]] *)

Lemma subscript_spec n a m k :
  wf m →
  ∃ m1 (i : nat),
    subscript (S (S n)) a m k = Some (m1, (hashy m1 k, i)) ∧ wf m1 ∧
    find_key (bucket m1 (hashy m1 k)) k = Some i ∧
    (if containsKey m k then m1 = m
     else insert (S (S n)) m k a = Some (true, m1)).
Proof.
  intros Hwf. unfold subscript.
  destruct (containsKey m k) eqn:Hc.
  - simpl. pose proof Hc as Hc'. unfold containsKey, bucketIndex in Hc'.
    destruct (find_key (bucket m (hashy m k)) k) as [i|] eqn:Ei; [|done].
    simpl. by exists m, i.
  - destruct (insert_spec n m k a Hwf) as (r & m1 & Hins & Hwf1 & _).
    pose proof (insert_at _ _ _ _ _ _ Hwf Hins) as (_ & -> & _ & Hat).
    rewrite Hc in Hins, Hat. rewrite Hins. simpl.
    assert (containsKey m1 k = true) as Hc1.
    { apply containsKey_at; [auto with hm|]. by rewrite Hat, decide_True. }
    unfold containsKey, bucketIndex in Hc1.
    destruct (find_key (bucket m1 (hashy m1 k)) k) as [i|] eqn:Ei; [|done].
    simpl. by exists m1, i.
Qed.

(** X10: the assignment [m[k] = v] on a table that satisfies the class
    invariant: afterwards [at(k)] is [v], every other key has the binding it
    had, and [size()] is one more exactly when [k] was not contained; when
    it was, the capacity is unchanged. *)
Theorem index_assign (n : nat) (a : V) m k v :
  wf m →
  ∃ m1 ref, subscript (S (S n)) a m k = Some (m1, ref) ∧
    wf (store m1 ref v) ∧
    at_ (store m1 ref v) k = Some v ∧
    (∀ k', k' ≠ k → at_ (store m1 ref v) k' = at_ m k') ∧
    size (store m1 ref v) =
      (if containsKey m k then size m else size m + 1) ∧
    (containsKey m k = true → capacity (store m1 ref v) = capacity m).
Proof.
  intros Hwf.
  destruct (subscript_spec n a m k Hwf) as (m1 & i & Hsub & Hwf1 & Hi & Hcase).
  destruct (store_spec m1 k i v Hwf1 Hi) as (Hwf2 & Hsz & Hat).
  exists m1, (hashy m1 k, i). do 2 (split; [done|]).
  split; [by rewrite Hat, decide_True|]. unfold size, capacity. rewrite Hsz.
  destruct (containsKey m k) eqn:Hc.
  - subst m1. split; [|done]. intros k' Hne. by rewrite Hat, decide_False.
  - pose proof (insert_at _ _ _ _ _ _ Hwf Hcase) as (_ & _ & Hsz1 & Hat1).
    rewrite Hc in Hsz1, Hat1. split; [|done].
    intros k' Hne. by rewrite Hat, decide_False, Hat1, decide_False.
Qed.

(** X11: reading [m[k]] on a table that satisfies the class invariant never
    throws: for a contained key the table is left as it is and the value of
    [k] is read; for another key the pair of [k] and the default-initialised
    value is inserted first, and that value is read. *)
Theorem index_read (n : nat) (a : V) m k :
  wf m →
  ∃ m1 ref, subscript (S (S n)) a m k = Some (m1, ref) ∧ wf m1 ∧
    fetch m1 ref = at_ m1 k ∧
    at_ m1 k = (if containsKey m k then at_ m k else Some a) ∧
    (∀ k', k' ≠ k → at_ m1 k' = at_ m k') ∧
    size m1 = (if containsKey m k then size m else size m + 1) ∧
    (containsKey m k = true → m1 = m).
Proof.
  intros Hwf.
  destruct (subscript_spec n a m k Hwf) as (m1 & i & Hsub & Hwf1 & Hi & Hcase).
  exists m1, (hashy m1 k, i). do 2 (split; [done|]). split.
  { unfold fetch, at_, bucketIndex. rewrite Hi. simpl. by rewrite Hi. }
  unfold size. destruct (containsKey m k) eqn:Hc.
  - by subst m1.
  - pose proof (insert_at _ _ _ _ _ _ Hwf Hcase) as (_ & _ & Hsz1 & Hat1).
    rewrite Hc in Hsz1, Hat1. split; [by rewrite Hat1, decide_True|].
    split; [|done]. intros k' Hne. by rewrite Hat1, decide_False.
Qed.

(** ** [operator==] as an equivalence *)

Lemma equal_bindings (a b : HashMap K V) :
  wf a → wf b →
  equal a b = Some true ↔ ∀ k, at_ a k = at_ b k.
Proof.
  intros Ha Hb. destruct (equal_spec a b Ha Hb) as (r & Heq & Hr).
  rewrite Heq. split.
  - intros [= ->]. destruct (proj1 Hr eq_refl) as [Hs Hsub].
    pose proof (bindings_sym a b Ha Hb Hs Hsub) as Hsub'.
    intros k. destruct (at_ a k) as [v|] eqn:Ea.
    + symmetry. by apply Hsub'.
    + destruct (at_ b k) as [v|] eqn:Eb; [|done].
      apply Hsub in Eb. congruence.
  - intros Hat. f_equal. apply Hr. split.
    + rewrite (wf_size a Ha), (wf_size b Hb). f_equal. apply Permutation_length.
      apply NoDup_Permutation; [apply entries_NoDup; auto with hm..|].
      intros [k v]. rewrite <- !at_spec by auto with hm. by rewrite Hat.
    + intros k v. by rewrite Hat.
Qed.

(** X12: on tables that satisfy the class invariant, [a == b] is [true]
    exactly when [at] gives the same result on both for every key; so [==] is
    reflexive and transitive, and [a != b] is [false] in exactly those
    cases. *)
Theorem equal_equivalence (a b c : HashMap K V) :
  wf a → wf b → wf c →
  (equal a b = Some true ↔ ∀ k, at_ a k = at_ b k) ∧
  equal a a = Some true ∧
  (equal a b = Some true → equal b c = Some true → equal a c = Some true) ∧
  (not_equal a b = Some false ↔ equal a b = Some true).
Proof.
  intros Ha Hb Hc. split; [by apply equal_bindings|]. split; [|split].
  - by apply equal_bindings.
  - rewrite !equal_bindings by done. intros Hab Hbc k. by rewrite Hab.
  - unfold not_equal. destruct (equal a b) as [[]|]; simpl; split; by intros [=].
Qed.

(** ** Runs against the reference model *)

Lemma exec_refines n m (l : list (K * V)) (o : op K V) r m' :
  wf m → entries m ≡ₚ l →
  exec (S (S n)) m o = Some (r, m') →
  r = (model_exec l o).1 ∧ entries m' ≡ₚ (model_exec l o).2.
Proof.
  intros Hwf Hl Hex. pose proof (wf_layout m Hwf) as Hlay.
  destruct o as [key value|key]; simpl in *.
  - destruct (insert_spec n m key value Hwf) as (r0 & m0 & Hins & _ & Hcase).
    rewrite Hex in Hins. injection Hins as <- <-.
    destruct (containsKey m key) eqn:Hc.
    + destruct Hcase as [-> ->].
      apply containsKey_spec in Hc; [|done]. rewrite Hl in Hc.
      by rewrite decide_True.
    + destruct Hcase as (-> & Hent & _).
      apply containsKey_false in Hc; [|done]. rewrite Hl in Hc.
      rewrite decide_False by done. simpl. by rewrite Hent, Hl.
  - destruct (erase_spec (S n) m key Hwf) as (r0 & m0 & Her & Hwf' & Hcase).
    rewrite Hex in Her. injection Her as <- <-.
    destruct (containsKey m key) eqn:Hc.
    + destruct Hcase as (-> & [v Hent] & _).
      apply containsKey_spec in Hc; [|done]. rewrite Hl in Hc.
      rewrite decide_True by done. simpl. split; [done|].
      pose proof (lay_unique m Hlay) as Hnd. rewrite Hent in Hnd.
      simpl in Hnd. apply NoDup_cons in Hnd as [Hk _].
      rewrite <- Hl, Hent, filter_cons_False by (simpl; tauto).
      rewrite filter_all; [done|].
      intros p Hp Heq. destruct Hk. rewrite <- Heq.
      by apply list_elem_of_fmap_2.
    + destruct Hcase as [-> ->].
      apply containsKey_false in Hc; [|done]. rewrite Hl in Hc.
      by rewrite decide_False.
Qed.

Lemma run_refines_from n (os : list (op K V)) m (l : list (K * V)) :
  wf m → entries m ≡ₚ l →
  ∃ rs m', run (S (S n)) m os = Some (rs, m') ∧ wf m' ∧
           rs = (model_run l os).1 ∧ entries m' ≡ₚ (model_run l os).2.
Proof.
  revert m l. induction os as [|o os IH]; intros m l Hwf Hl.
  { by exists [], m. }
  destruct (exec_spec n m o Hwf) as (r & m1 & Hex & Hwf1).
  destruct (exec_refines n m l o r m1 Hwf Hl Hex) as [Hr Hl1].
  destruct (IH m1 _ Hwf1 Hl1) as (rs & m' & Hrun & Hwf' & Hrs & Hl').
  exists (r :: rs), m'. rewrite run_cons, Hex; simpl. rewrite Hrun; simpl.
  split; [done|]. split; [done|]. split; [by rewrite Hr, Hrs|done].
Qed.

(** X13: a sequence of [insert] and [erase] calls on a default-constructed
    table returns what the reference model returns, call by call, and leaves
    the model's pairs: [at] finds exactly them and [size()] is their
    number. *)
Theorem run_refines (n : nat) (os : list (op K V)) :
  ∃ rs m, run (S (S n)) HashMap_default os = Some (rs, m) ∧
    rs = (model_run [] os).1 ∧
    entries m ≡ₚ (model_run [] os).2 ∧
    size m = Z.of_nat (length (model_run [] os).2) ∧
    ∀ k v, at_ m k = Some v ↔ (k, v) ∈ (model_run [] os).2.
Proof.
  destruct (run_refines_from n os HashMap_default [] wf_default)
    as (rs & m & Hrun & Hwf & Hrs & Hl).
  { replace (entries HashMap_default) with (@nil (K * V)); [done|].
    symmetry. apply mjoin_replicate_nil. }
  exists rs, m. do 3 (split; [done|]). split.
  - unfold size. by rewrite (wf_size m Hwf), Hl.
  - intros k v. by rewrite at_spec, Hl by auto with hm.
Qed.

(** ** Inserting a list of pairs *)

Lemma first_written_is_Some (kvs : list (K * V)) k :
  is_Some (first_written kvs k) ↔ k ∈ kvs.*1.
Proof.
  unfold first_written.
  rewrite fmap_is_Some, <- not_eq_None_Some, head_None, list_elem_of_fmap.
  split.
  - intros Hne. destruct (filter _ _) as [|p l] eqn:E; [done|].
    assert (p ∈ filter (λ p, p.1 = k) kvs) as Hp by (rewrite E; left).
    apply list_elem_of_filter in Hp as [<- Hp]. eauto.
  - intros (p & -> & Hp) Hnil.
    assert (p ∈ filter (λ q, q.1 = p.1) kvs) as Hin
      by (by apply list_elem_of_filter).
    rewrite Hnil in Hin. by apply elem_of_nil in Hin.
Qed.

Lemma run_inserts n (kvs : list (K * V)) m :
  wf m →
  ∃ rs m', run (S (S n)) m ((λ p, Insert p.1 p.2) <$> kvs) = Some (rs, m') ∧
           wf m' ∧
           ∀ k, at_ m' k =
                  match at_ m k with
                  | Some v => Some v
                  | None => first_written kvs k
                  end.
Proof.
  revert m. induction kvs as [|[key value] kvs IH]; intros m Hwf.
  { exists [], m. do 2 (split; [done|]). intros k. by destruct (at_ m k). }
  destruct (exec_spec n m (Insert key value) Hwf) as (r & m1 & Hex & Hwf1).
  pose proof (exec_at _ _ _ _ _ Hwf Hex) as (_ & _ & Hat1).
  destruct (IH m1 Hwf1) as (rs & m' & Hrun & Hwf' & Hat').
  exists (r :: rs), m'. rewrite fmap_cons, run_cons. cbn [fst snd].
  rewrite Hex; simpl. rewrite Hrun; simpl. do 2 (split; [done|]).
  intros k. rewrite Hat', Hat1. unfold first_written.
  rewrite filter_cons; simpl.
  destruct (decide (k = key)) as [->|Hne].
  - rewrite decide_True by done. simpl.
    destruct (containsKey m key) eqn:Hc.
    + apply containsKey_at in Hc as [v ->]; [done|auto with hm].
    + apply at_None in Hc; [|auto with hm]. by rewrite Hc.
  - rewrite decide_False by done. done.
Qed.

(** X14: inserting a list of pairs, in order, into a default-constructed
    table binds every key to the value of its first pair in the list (a
    later pair with the same key is rejected), and leaves as many pairs as
    the list has distinct keys. *)
Theorem inserts_first_wins (n : nat) (kvs : list (K * V)) :
  ∃ rs m,
    run (S (S n)) HashMap_default ((λ p, Insert p.1 p.2) <$> kvs)
      = Some (rs, m) ∧
    (∀ k, at_ m k = first_written kvs k) ∧
    size m = Z.of_nat (length (remove_dups kvs.*1)).
Proof.
  destruct (run_inserts n kvs HashMap_default wf_default)
    as (rs & m & Hrun & Hwf & Hat).
  assert (∀ k, at_ m k = first_written kvs k) as Hat'.
  { intros k. by rewrite Hat, at_default. }
  exists rs, m. do 2 (split; [done|]).
  apply size_distinct_keys; [done|]. intros k.
  rewrite containsKey_at, Hat' by auto with hm.
  apply first_written_is_Some.
Qed.

(** ** After [clear] *)

Lemma mjoin_fmap_nil (bs : list (bucket_t K V)) :
  mjoin ((λ _, []) <$> bs) = @nil (K * V).
Proof. induction bs as [|b bs IH]; [done|]. exact IH. Qed.

Lemma clear_layout m : layout m → layout (clear m) ∧ entries (clear m) = [].
Proof.
  intros Hl.
  assert (entries (clear m) = []) as Hent by apply mjoin_fmap_nil.
  split; [|done]. split; rewrite ?Hent; simpl.
  - apply Hl.
  - rewrite length_fmap. apply Hl.
  - intros i b p (b' & -> & _)%list_lookup_fmap_Some. by intros ?%elem_of_nil.
  - apply NoDup_nil_2.
Qed.

(** [insert] of a new key into a table that keeps the layout but whose
    [_size] may be off. *)
Lemma insert_layout n m k v :
  layout m → containsKey m k = false →
  4 * (Z.of_nat (length (entries m)) + 1) ≤ 3 * (_capacity m * 2) →
  ∃ m', insert (S (S n)) m k v = Some (true, m') ∧ layout m' ∧
        entries m' ≡ₚ entries m ++ [(k, v)] ∧
        if 3 * _capacity m <? 4 * (_size m + 1)
        then _capacity m' = _capacity m * 2 ∧
             _size m' = Z.of_nat (length (entries m)) + 1
        else _capacity m' = _capacity m ∧ _size m' = _size m + 1.
Proof.
  intros Hl Hk Hroom. pose proof (lay_capacity m Hl) as Hcap.
  pose proof (pushed_entries m k v Hl) as Hent.
  rewrite insert_unfold, Hk. destruct (Qlt_b _ _) eqn:E.
  - apply load_gt_high in E; [|done]. simpl in E.
    destruct (resize_spec n UP (pushed m k v) (_capacity m * 2))
      as (m' & Hre & Hwf' & Hc & Hent'); [by apply pushed_layout|done|lia| |].
    { rewrite Hent, length_app. simpl. lia. }
    exists m'. rewrite Hre. simpl. split; [done|]. split; [auto with hm|].
    split; [by rewrite Hent'|].
    rewrite (proj2 (Z.ltb_lt _ _)) by done. split; [done|].
    rewrite (wf_size m' Hwf'), Hent', Hent, length_app. simpl. lia.
  - apply not_true_iff_false in E. rewrite load_gt_high in E by done.
    simpl in E. exists (pushed m k v). split; [done|].
    split; [by apply pushed_layout|]. split; [done|].
    rewrite (proj2 (Z.ltb_ge _ _)) by lia. done.
Qed.

(** X15: after [clear()] on a table with its buckets laid out, [at] throws
    for every key and [begin()] is [end()]; a following [insert(k, v)]
    returns [true] and leaves [k] bound to [v] and no other key.  [_size]
    was not reset: it is one more than before the [clear()], unless that is
    above 0.75 times the capacity, in which case the [insert] resizes and
    [_size] is 1. *)
Theorem clear_then_insert (n : nat) m k v :
  layout m →
  (∀ k', at_ (clear m) k' = None) ∧
  begin (clear m) = end_ (clear m) ∧
  ∃ m', insert (S (S n)) (clear m) k v = Some (true, m') ∧
        at_ m' k = Some v ∧
        (∀ k', k' ≠ k → at_ m' k' = None) ∧
        if 3 * capacity m <? 4 * (size m + 1)
        then capacity m' = capacity m * 2 ∧ size m' = 1
        else capacity m' = capacity m ∧ size m' = size m + 1.
Proof.
  intros Hl. destruct (clear_layout m Hl) as [Hlc Hent].
  pose proof (lay_capacity m Hl) as Hcap.
  assert (∀ k', containsKey (clear m) k' = false) as Hnone by apply clear_spec.
  split; [intros k'; by apply at_None|].
  split; [apply begin_end_empty; eauto with hm|].
  destruct (insert_layout n (clear m) k v Hlc (Hnone k))
    as (m' & Hins & Hl' & Hent' & Hcase).
  { rewrite Hent. simpl. lia. }
  rewrite Hent in Hent', Hcase. simpl in Hent', Hcase.
  exists m'. split; [done|]. split; [|split; [|done]].
  - apply at_spec; [done|]. rewrite Hent'. left.
  - intros k' Hne. apply at_None; [done|]. apply containsKey_false; [done|].
    rewrite Hent'. simpl. by intros ->%list_elem_of_singleton.
Qed.

End HashMap_more.

(** * The further properties on tables of [int] *)

Section Int_more.

(** X1 at the table of 13 keys and key 3. *)
Lemma erase_effect_witness :
  ∃ r m', erase 1 (int_table inserts13) 3 = Some (r, m') ∧ wf m' ∧
    r = containsKey (int_table inserts13) 3 ∧
    containsKey m' 3 = false ∧
    (∀ k', k' ≠ 3 → at_ m' k' = at_ (int_table inserts13) k') ∧
    size m' = (if r then size (int_table inserts13) - 1
               else size (int_table inserts13)) ∧
    (r = false → m' = int_table inserts13).
Proof. apply (erase_effect 0). apply wf_int_table. Defined.

(** X2 at the table of 13 keys and the new key 45. *)
Lemma insert_erase_inverse_witness :
  ∃ m1 m2, insert 2 (int_table inserts13) 45 7 = Some (true, m1) ∧
           erase 1 m1 45 = Some (true, m2) ∧ wf m2 ∧
           (∀ k', at_ m2 k' = at_ (int_table inserts13) k') ∧
           size m2 = size (int_table inserts13) ∧
           equal (int_table inserts13) m2 = Some true.
Proof.
  apply (insert_erase_inverse 0).
  - apply wf_int_table.
  - vm_compute. reflexivity.
Defined.

(** X3 at a table with keys 1 and 17 in one bucket. *)
Lemma at_throws_iff_absent_witness :
  (at_ (int_table [Insert 1 10; Insert 17 20]) 33 = None ↔
     containsKey (int_table [Insert 1 10; Insert 17 20]) 33 = false) ∧
  (17, 20) ∈ bucket (int_table [Insert 1 10; Insert 17 20])
               (hashy (int_table [Insert 1 10; Insert 17 20]) 17).
Proof.
  split.
  - apply (at_throws_iff_absent (int_table [Insert 1 10; Insert 17 20]) 33).
  - apply (at_throws_iff_absent (int_table [Insert 1 10; Insert 17 20]) 17).
    vm_compute. reflexivity.
Defined.

(** X4 at the same table: a reference for key 17, none for key 33. *)
Lemma subscript_const_spec_witness :
  subscript_const (int_table [Insert 1 10; Insert 17 20]) 33 = None ∧
  fetch (int_table [Insert 1 10; Insert 17 20]) (1, 1%nat)
    = at_ (int_table [Insert 1 10; Insert 17 20]) 17.
Proof.
  split.
  - apply (subscript_const_spec (int_table [Insert 1 10; Insert 17 20]) 33).
    vm_compute. reflexivity.
  - apply (subscript_const_spec (int_table [Insert 1 10; Insert 17 20]) 17).
    vm_compute. reflexivity.
Defined.

(** X5 at a table with 12 keys and capacity 16: the 13th key doubles the
    capacity. *)
Lemma resize_thresholds_witness :
  (∃ r m', insert 2 (int_table (take 12 inserts13)) 12 120 = Some (r, m') ∧
     capacity m' = 32) ∧
  (∃ r m', erase 1 (int_table (take 12 inserts13)) 12 = Some (r, m') ∧
     capacity m' = 16).
Proof.
  exact (resize_thresholds 0 (int_table (take 12 inserts13)) 12 120
           (wf_int_table _)).
Defined.

(** X6 at a table with 8 keys and capacity 32, halved. *)
Lemma resize_keeps_pairs_witness :
  ∃ m', resize 1 DOWN (int_table (inserts13 ++ take 5 erases11)) = Some m' ∧
        wf m' ∧ capacity m' = 16 ∧ size m' = 8 ∧
        ∀ k, at_ m' k = at_ (int_table (inserts13 ++ take 5 erases11)) k.
Proof.
  apply (resize_keeps_pairs 0 DOWN (int_table (inserts13 ++ take 5 erases11))).
  - apply wf_layout, wf_int_table.
  - vm_compute. reflexivity.
  - by vm_compute.
Defined.

(** X7 at a sequence that grows the table to 32 buckets. *)
Lemma bucket_index_is_mod_witness :
  ∃ rs m, run 2 HashMap_default inserts13 = Some (rs, m) ∧
    ∀ k, 0 ≤ hashy m k < capacity m ∧
         hashy m k = hash k `mod` capacity m ∧
         bucketIndex m k =
           if containsKey m k then Some (hash k `mod` capacity m) else None.
Proof. apply (bucket_index_is_mod 0 inserts13). Defined.

(** X8 at a table with keys 1 and 17 in one bucket. *)
Lemma bucketSize_counts_witness :
  bucketSize (int_table [Insert 1 10; Insert 17 20; Insert 5 50]) 17 = Some 2 ∧
  (∀ s, bucketSize (int_table [Insert 1 10; Insert 17 20; Insert 5 50]) 17
          = Some s →
        1 ≤ s ≤ size (int_table [Insert 1 10; Insert 17 20; Insert 5 50])).
Proof.
  destruct (bucketSize_counts
              (int_table [Insert 1 10; Insert 17 20; Insert 5 50]) 17)
    as [Hcount Hbound]; [apply wf_int_table|].
  split; [|exact Hbound]. rewrite Hcount. vm_compute. reflexivity.
Defined.

(** X9 at a table whose first pair is in bucket 5. *)
Lemma first_spec_witness :
  0 ≤ first (int_table [Insert 21 1; Insert 5 50])
    ≤ capacity (int_table [Insert 21 1; Insert 5 50]) ∧
  (first (int_table [Insert 21 1; Insert 5 50])
     = capacity (int_table [Insert 21 1; Insert 5 50]) ↔
   entries (int_table [Insert 21 1; Insert 5 50]) = []) ∧
  (first (int_table [Insert 21 1; Insert 5 50])
     < capacity (int_table [Insert 21 1; Insert 5 50]) →
   bucket (int_table [Insert 21 1; Insert 5 50])
     (first (int_table [Insert 21 1; Insert 5 50])) ≠ [] ∧
   ∀ j, 0 ≤ j < first (int_table [Insert 21 1; Insert 5 50]) →
        bucket (int_table [Insert 21 1; Insert 5 50]) j = []).
Proof.
  apply (first_spec (int_table [Insert 21 1; Insert 5 50])).
  apply wf_layout, wf_int_table.
Defined.

(** X10 at the table of 12 keys: [m[3] = 7] overwrites, [m[12] = 7]
    inserts (and resizes). *)
Lemma index_assign_witness :
  (∃ m1 ref, subscript 2 0 (int_table (take 12 inserts13)) 3 = Some (m1, ref) ∧
     at_ (store m1 ref 7) 3 = Some 7 ∧ size (store m1 ref 7) = 12) ∧
  (∃ m1 ref, subscript 2 0 (int_table (take 12 inserts13)) 12 = Some (m1, ref) ∧
     at_ (store m1 ref 7) 12 = Some 7 ∧ size (store m1 ref 7) = 13).
Proof.
  split.
  - destruct (index_assign 0 0 (int_table (take 12 inserts13)) 3 7)
      as (m1 & ref & Hsub & _ & Hat & _ & Hsz & _); [apply wf_int_table|].
    exists m1, ref. split; [exact Hsub|]. split; [exact Hat|exact Hsz].
  - destruct (index_assign 0 0 (int_table (take 12 inserts13)) 12 7)
      as (m1 & ref & Hsub & _ & Hat & _ & Hsz & _); [apply wf_int_table|].
    exists m1, ref. split; [exact Hsub|]. split; [exact Hat|exact Hsz].
Defined.

(** X11 at the table of 12 keys: reading [m[12]] inserts key 12 with the
    default value 0. *)
Lemma index_read_witness :
  ∃ m1 ref, subscript 2 0 (int_table (take 12 inserts13)) 12 = Some (m1, ref) ∧
    fetch m1 ref = Some 0 ∧ size m1 = 13.
Proof.
  destruct (index_read 0 0 (int_table (take 12 inserts13)) 12)
    as (m1 & ref & Hsub & _ & Hf & Hat & _ & Hsz & _); [apply wf_int_table|].
  exists m1, ref. split; [exact Hsub|]. split; [|exact Hsz].
  rewrite Hf. exact Hat.
Defined.

(** X12 at three tables with the same two bindings. *)
Lemma equal_equivalence_witness :
  equal (int_table [Insert 1 10; Insert 17 20])
        (int_table [Insert 1 10; Insert 17 20]) = Some true ∧
  (equal (int_table [Insert 1 10; Insert 17 20])
         (int_table [Insert 17 20; Insert 1 10]) = Some true →
   equal (int_table [Insert 17 20; Insert 1 10])
         (int_table [Insert 5 5; Insert 17 20; Erase 5; Insert 1 10])
     = Some true →
   equal (int_table [Insert 1 10; Insert 17 20])
         (int_table [Insert 5 5; Insert 17 20; Erase 5; Insert 1 10])
     = Some true).
Proof.
  destruct (equal_equivalence
              (int_table [Insert 1 10; Insert 17 20])
              (int_table [Insert 17 20; Insert 1 10])
              (int_table [Insert 5 5; Insert 17 20; Erase 5; Insert 1 10]))
    as (_ & Hrefl & Htrans & _); try apply wf_int_table.
  split; [exact Hrefl|exact Htrans].
Defined.

(** X13 at a sequence with a rejected [insert] and a failed [erase]. *)
Lemma run_refines_witness :
  ∃ rs m,
    run 2 HashMap_default [Insert 1 10; Insert 1 20; Erase 2; Erase 1; Insert 17 5]
      = Some (rs, m) ∧
    rs = [true; false; false; true; true] ∧
    entries m ≡ₚ [(17, 5)] ∧ size m = 1.
Proof.
  destruct (run_refines 0
              [Insert 1 10; Insert 1 20; Erase 2; Erase 1; Insert 17 5])
    as (rs & m & Hrun & Hrs & Hent & Hsz & _).
  exists rs, m. split; [exact Hrun|]. split; [exact Hrs|].
  split; [exact Hent|exact Hsz].
Defined.

(** X14 at a list with key 1 twice. *)
Lemma inserts_first_wins_witness :
  ∃ rs m,
    run 2 HashMap_default
      ((λ p, Insert p.1 p.2) <$> [(1, 10); (2, 20); (1, 30)]) = Some (rs, m) ∧
    at_ m 1 = Some 10 ∧ size m = 2.
Proof.
  destruct (inserts_first_wins 0 [(1, 10); (2, 20); (1, 30)])
    as (rs & m & Hrun & Hat & Hsz).
  exists rs, m. split; [exact Hrun|]. split; [exact (Hat 1)|exact Hsz].
Defined.

(** X15 at the table of 12 keys: [_size] is 12 after [clear()], so the next
    [insert] resizes. *)
Lemma clear_then_insert_witness :
  (∀ k', at_ (clear (int_table (take 12 inserts13))) k' = None) ∧
  begin (clear (int_table (take 12 inserts13)))
    = end_ (clear (int_table (take 12 inserts13))) ∧
  ∃ m', insert 2 (clear (int_table (take 12 inserts13))) 5 50 = Some (true, m') ∧
        at_ m' 5 = Some 50 ∧
        (∀ k', k' ≠ 5 → at_ m' k' = None) ∧
        capacity m' = 32 ∧ size m' = 1.
Proof.
  apply (clear_then_insert 0 (int_table (take 12 inserts13)) 5 50).
  apply wf_layout, wf_int_table.
Defined.

(** X16 at the table of 13 keys. *)
Lemma assign_spec_witness :
  ∃ m', assign 1 (int_table inserts13) = Some m' ∧ wf m' ∧
        _size m' = _size (int_table inserts13) ∧
        _capacity m' = _capacity (int_table inserts13) ∧
        (∀ k, at_ m' k = at_ (int_table inserts13) k) ∧
        equal (int_table inserts13) m' = Some true.
Proof. apply (assign_spec 0). apply wf_int_table. Defined.

(** X17 at the table of 13 keys. *)
Lemma copy_inflates_witness :
  ∃ c, HashMap_copy 2 (int_table inserts13) = Some c ∧
       ((_capacity c = _capacity (int_table inserts13) ∧
         _size c = _size (int_table inserts13) * 2) ∨
        _capacity c = _capacity (int_table inserts13) * 2) ∧
       (entries (int_table inserts13) ≠ [] →
        _size c ≠ _size (int_table inserts13) ∨
        _capacity c ≠ _capacity (int_table inserts13)).
Proof. apply (copy_inflates 0). apply wf_int_table. Defined.

End Int_more.

(** * The tables of the public interface *)

Section HashMap_built.
Context {K V : Type} `{EqDecision K, Hash K, EqDecision V}.
Implicit Types (m : HashMap K V) (k key : K) (v : V).

#[local] Hint Resolve wf_layout lay_capacity lay_buckets lay_unique : hm.
#[local] Arguments insert : simpl never.

Lemma wf_sound m : wf m → sound m.
Proof.
  intros Hwf. split; [apply Hwf| |apply Hwf]. rewrite (wf_size m Hwf). lia.
Qed.

Lemma layout_empty (c sz : Z) :
  0 < c →
  layout ({| _buckets := replicate (Z.to_nat c) []; _size := sz;
             _capacity := c |} : HashMap K V).
Proof.
  intros Hc. split; simpl.
  - done.
  - by rewrite length_replicate.
  - intros i b p [-> _]%lookup_replicate. by intros ?%elem_of_nil.
  - unfold entries; simpl. rewrite mjoin_replicate_nil. apply NoDup_nil_2.
Qed.

Lemma insert_sound n m k v :
  sound m →
  ∃ r m', insert (S (S n)) m k v = Some (r, m') ∧ sound m'.
Proof.
  intros [Hl Hs Hld]. pose proof (lay_capacity m Hl) as Hcap.
  destruct (containsKey m k) eqn:Hk.
  - exists false, m. by rewrite insert_unfold, Hk.
  - destruct (insert_layout n m k v Hl Hk) as (m' & Hins & Hl' & Hent & Hcase);
      [lia|].
    exists true, m'. split; [done|].
    assert (length (entries m') = S (length (entries m))) as Hlen
      by (rewrite Hent, length_app; simpl; lia).
    destruct (Z.ltb_spec (3 * _capacity m) (4 * (_size m + 1)));
      destruct Hcase as [Hc Hsz]; split; try done; lia.
Qed.

Lemma erase_sound n m k :
  sound m →
  ∃ r m', erase (S n) m k = Some (r, m') ∧ sound m'.
Proof.
  intros [Hl Hs Hld]. pose proof (lay_capacity m Hl) as Hcap.
  rewrite erase_unfold. unfold bucketIndex.
  destruct (find_key (bucket m (hashy m k)) k) as [j|] eqn:Ej;
    [|by exists false, m].
  simpl. rewrite Ej; simpl.
  apply find_key_Some in Ej as (v & Hj & _).
  pose proof (erased_entries m k j v Hl Hj) as Hent.
  pose proof (erased_layout m k j v Hl Hj) as Hl'.
  assert (length (entries m) = S (length (entries (erased m (hashy m k) j))))
    as Hlen by (by rewrite Hent).
  destruct (Qlt_b _ _) eqn:E.
  - apply load_lt_low in E; [|done]. simpl in E.
    assert (_capacity m `quot` 2 = _capacity m `div` 2) as Hq
      by (apply Z.quot_div_nonneg; lia).
    pose proof (Z.div_mod (_capacity m) 2) as Hdm.
    pose proof (Z.mod_pos_bound (_capacity m) 2) as Hmb.
    destruct (resize_spec n DOWN (erased m (hashy m k) j) (_capacity m `quot` 2))
      as (m' & Hre & Hwf' & _); [done|done|simpl in *; lia..|].
    exists true, m'. rewrite Hre. simpl. split; [done|]. by apply wf_sound.
  - apply not_true_iff_false in E. rewrite load_lt_low in E by done.
    simpl in E. exists true, (erased m (hashy m k) j).
    split; [done|]. split; [done|simpl; lia..].
Qed.

Lemma clear_sound m : sound m → sound (clear m).
Proof.
  intros [Hl Hs Hld]. destruct (clear_layout m Hl) as [Hlc Hent].
  split; [done| |done]. rewrite Hent. simpl. lia.
Qed.

Lemma reinsert_sound n (ps : list (K * V)) m :
  sound m → ∃ m', reinsert (insert (S (S n))) ps m = Some m' ∧ sound m'.
Proof.
  revert m. induction ps as [|[k v] ps IH]; intros m Hs.
  { by exists m. }
  destruct (insert_sound n m k v Hs) as (r & m1 & Hins & Hs1).
  destruct (IH m1 Hs1) as (m' & Hre & Hs').
  exists m'. cbn [reinsert fst snd]. rewrite Hins. simpl. by rewrite Hre.
Qed.

Lemma copy_sound n m :
  sound m → ∃ c, HashMap_copy (S (S n)) m = Some c ∧ sound c.
Proof.
  intros [Hl Hs Hld]. pose proof (lay_capacity m Hl) as Hcap.
  unfold HashMap_copy. rewrite items_spec by eauto with hm. simpl.
  apply reinsert_sound. split.
  - by apply layout_empty.
  - unfold entries; simpl. rewrite mjoin_replicate_nil. simpl. lia.
  - done.
Qed.

Lemma assign_sound n m :
  sound m → ∃ c, assign (S (S n)) m = Some c ∧ sound c.
Proof.
  intros [Hl Hs Hld]. pose proof (lay_capacity m Hl) as Hcap.
  unfold assign. rewrite items_spec by eauto with hm. simpl.
  apply reinsert_sound. split.
  - by apply layout_empty.
  - unfold entries; simpl. by rewrite mjoin_replicate_nil.
  - simpl. lia.
Qed.

Lemma store_sound m k (i : nat) v :
  sound m →
  find_key (bucket m (hashy m k)) k = Some i →
  sound (store m (hashy m k, i) v).
Proof.
  intros [Hl Hs Hld] Hi.
  destruct (store_entries m k i v Hl Hi) as (L1 & L2 & v0 & Hent & Hent' & Hpl).
  pose proof (hashy_range m k (lay_capacity m Hl)) as Hr.
  split; [|rewrite Hent'; rewrite Hent in Hs;
           rewrite length_app in *; simpl in *; lia|done].
  unfold store; simpl.
  eapply layout_replace; [done|by apply bucket_hashy| |].
  - intros p Hp. rewrite Z2Nat.id by lia. apply Hpl.
    unfold bucket, store; simpl.
    rewrite list_lookup_insert_eq; [done|].
    eapply lookup_lt_Some. by apply bucket_hashy.
  - change (NoDup (entries (store m (hashy m k, i) v)).*1).
    rewrite Hent', fmap_app; simpl.
    pose proof (lay_unique m Hl) as Hnd.
    by rewrite Hent, fmap_app in Hnd.
Qed.

Lemma subscript_sound n a m k :
  sound m →
  ∃ m1 (i : nat),
    subscript (S (S n)) a m k = Some (m1, (hashy m1 k, i)) ∧ sound m1 ∧
    find_key (bucket m1 (hashy m1 k)) k = Some i.
Proof.
  intros Hs. unfold subscript.
  assert (∃ m1, (if containsKey m k then Some m
                 else snd <$> insert (S (S n)) m k a) = Some m1 ∧
                sound m1 ∧ containsKey m1 k = true) as (m1 & -> & Hs1 & Hc1).
  { destruct (containsKey m k) eqn:Hc; [by exists m|].
    pose proof (sound_layout m Hs) as Hl. pose proof (sound_size m Hs) as Hsz.
    pose proof (sound_load m Hs) as Hld.
    pose proof (lay_capacity m Hl) as Hcap.
    destruct (insert_layout n m k a Hl Hc) as (m1 & Hins & Hl1 & Hent & _);
      [lia|].
    destruct (insert_sound n m k a Hs) as (r & m1' & Hins' & Hs1).
    rewrite Hins in Hins'. injection Hins' as _ <-.
    exists m1. rewrite Hins. split; [done|]. split; [done|].
    apply containsKey_spec; [done|]. rewrite Hent, fmap_app, elem_of_app.
    right. simpl. left. }
  simpl. unfold containsKey, bucketIndex in Hc1.
  destruct (find_key (bucket m1 (hashy m1 k)) k) as [i|] eqn:Ei; [|done].
  simpl. by exists m1, i.
Qed.

(** Every table that the constructors and the public operations produce is
    sound. *)
Lemma built_sound m : built m → sound m.
Proof.
  induction 1 as [|n a keys values m Hof|n m c _ IH Hc|n m c _ IH Hc
                  |n m key value r m' _ IH Hins|n m key r m' _ IH Her
                  |m _ IH|n a m key m1 ref _ IH Hsub
                  |n a m key m1 ref value _ IH Hsub
                  |m key ref value _ IH Hsub].
  - apply wf_sound, wf_default.
  - unfold HashMap_of in Hof. destruct (decide _) as [|Hlen]; [done|].
    apply dec_stable in Hlen.
    destruct (HashMap_of_loop_spec n a keys values HashMap_default wf_default Hlen)
      as (m0 & Hloop & Hwf & _).
    rewrite Hloop in Hof. injection Hof as <-. by apply wf_sound.
  - destruct (copy_sound n m IH) as (c' & Hc' & Hs). by simplify_eq.
  - destruct (assign_sound n m IH) as (c' & Hc' & Hs). by simplify_eq.
  - destruct (insert_sound n m key value IH) as (r' & m0 & Hins' & Hs).
    by simplify_eq.
  - destruct (erase_sound (S n) m key IH) as (r' & m0 & Her' & Hs).
    by simplify_eq.
  - by apply clear_sound.
  - destruct (subscript_sound n a m key IH) as (m0 & i & Hsub' & Hs & _).
    by simplify_eq.
  - destruct (subscript_sound n a m key IH) as (m0 & i & Hsub' & Hs & Hi).
    rewrite Hsub in Hsub'. injection Hsub' as -> ->. by apply store_sound.
  - unfold subscript_const in Hsub.
    destruct (containsKey m key); [|done]. simpl in Hsub.
    destruct (find_key (bucket m (hashy m key)) key) as [i|] eqn:Ei; [|done].
    simpl in Hsub. injection Hsub as <-. by apply store_sound.
Qed.

(** C8, as amended: on every table that the constructors and the public
    operations produce, the loop from [begin()] to [end()] stops within as
    many turns as there are stored pairs; it visits the stored pairs bucket
    by bucket and, within a bucket, in the order they have in it; their keys
    are distinct, and are the keys for which [containsKey] is true; on a
    table with no stored pair [begin()] is [end()].  On a table that
    satisfies the class invariant the pairs visited are [size()] many. *)
Theorem traversal_of_built (n : nat) m :
  built m → (length (mjoin (_buckets m)) ≤ n)%nat →
  traverse n m (begin m) = Some (mjoin (_buckets m)) ∧
  NoDup (mjoin (_buckets m)).*1 ∧
  (∀ k, k ∈ (mjoin (_buckets m)).*1 ↔ containsKey m k = true) ∧
  (mjoin (_buckets m) = [] → begin m = end_ m) ∧
  (wf m → Z.of_nat (length (mjoin (_buckets m))) = size m).
Proof.
  intros Hb Hn. destruct (built_sound m Hb) as [Hl _ _].
  fold (entries m) in *. split; [|split; [|split; [|split]]].
  - apply traverse_begin; eauto with hm.
  - apply Hl.
  - intros k. symmetry. by apply containsKey_spec.
  - apply begin_end_empty; eauto with hm.
  - intros Hwf. unfold size. by rewrite (wf_size m Hwf).
Qed.

End HashMap_built.

(** * Traversal and equality on tables of [int] *)

Section Int_built.

Lemma built_run n (os : list (op Z Z)) m rs m' :
  built m → run (S (S n)) m os = Some (rs, m') → built m'.
Proof.
  revert m rs. induction os as [|o os IH]; intros m rs Hb Hrun.
  { simpl in Hrun. by simplify_eq. }
  rewrite run_cons in Hrun.
  destruct (exec (S (S n)) m o) as [[r m1]|] eqn:Hex; [|done]. simpl in Hrun.
  destruct (run (S (S n)) m1 os) as [[rs' m2]|] eqn:Hrun'; [|done].
  simpl in Hrun. injection Hrun as _ <-.
  apply (IH m1 rs'); [|done].
  destruct o as [key value|key]; unfold exec in Hex.
  - by eapply built_insert.
  - by eapply built_erase.
Qed.

Lemma built_int_table os : built (int_table os).
Proof.
  unfold int_table.
  destruct (run 2 HashMap_default os) as [[rs m]|] eqn:E; simpl.
  - eapply (built_run 0); [apply built_default|done].
  - apply built_default.
Qed.

(** C8 fails as stated.  After [insert(3, 1); insert(15, 2); clear()] the
    traversal visits no pair and [size()] is 2; the copy of a table with one
    pair has one pair to visit and [size()] 2.  With key 17 inserted before
    key 1, both of bucket 1, the traversal after a grow and a shrink visits
    key 1 first. *)
Lemma traversal_not_size_nor_insertion_order :
  (items (clear (int_table [Insert 3 1; Insert 15 2])) = Some [] ∧
   size (clear (int_table [Insert 3 1; Insert 15 2])) = 2) ∧
  (items (int_copy (int_table [Insert 1 10])) = Some [(1, 10)] ∧
   size (int_copy (int_table [Insert 1 10])) = 2) ∧
  (hashy (int_table grow_then_shrink) 17 = 1 ∧
   hashy (int_table grow_then_shrink) 1 = 1 ∧
   items (int_table grow_then_shrink)
     = Some [(1, 2); (17, 1); (8, 0); (9, 0); (10, 0); (11, 0); (12, 0)]).
Proof. vm_compute. done. Qed.

(** The amended C8 at the copy of a table with three pairs, whose [_size]
    is 6. *)
Lemma traversal_of_built_witness :
  traverse 3 (int_copy (int_table [Insert 17 20; Insert 5 50; Insert 1 10]))
    (begin (int_copy (int_table [Insert 17 20; Insert 5 50; Insert 1 10])))
    = Some [(17, 20); (1, 10); (5, 50)].
Proof.
  apply (traversal_of_built 3
           (int_copy (int_table [Insert 17 20; Insert 5 50; Insert 1 10]))).
  - apply (built_copy 0 (int_table [Insert 17 20; Insert 5 50; Insert 1 10])).
    + apply built_int_table.
    + vm_compute. reflexivity.
  - vm_compute. lia.
Defined.

(** C9: with [a] the table after [insert(1, 10); clear()], whose [size()]
    is still 1, and [b] the table after [insert(2, 20)], [a == b] is false
    and [b == a] is true; the sizes are equal and [a] binds no key. *)
Theorem equal_not_symmetric_after_clear :
  equal (clear (int_table [Insert 1 10])) (int_table [Insert 2 20])
    = Some false ∧
  equal (int_table [Insert 2 20]) (clear (int_table [Insert 1 10]))
    = Some true ∧
  size (clear (int_table [Insert 1 10])) = size (int_table [Insert 2 20]) ∧
  entries (clear (int_table [Insert 1 10])) = [].
Proof. vm_compute. done. Qed.

End Int_built.
